(** * Clone-domain detector: a shallow embedding of the two server variants

    The repository holds two versions of the same Express server:

    - [backend/server.js]: scores with the third-party [string-similarity]
      package, caches WHOIS answers in [whoisCache] and only asks WHOIS
      when the best score is above 80;
    - the second source file (called [part_000] below): scores with its own
      [levenshteinDistance] and asks WHOIS on every fuzzy request, without
      a cache.

    Both share [extractMainDomain], the exact-match fast path and the
    best-match loop.

    Modelling conventions.
    - JS strings are Rocq [string]s, one character per code unit (so code
      units below 256, which covers the ASCII hostnames the URL parser
      returns); [charAt], [startsWith] and [substring] follow the JS
      methods.
    - JS numbers are exact: matrix cells and lengths are [nat], scores are
      rationals [Q].  The IEEE rounding of [/], [-] and [*] is not
      modelled; the theorems about the handlers use nothing of the scores
      but their order, apart from the two on the range of the scores of
      part_000, which are about the exact values.
    - A JS array is a [list]; reading past the end gives [undefined], which
      is [None] here, and so does every computation that consumes it.
    - The [Set] of stored domains is the list of its elements in insertion
      order, which is the order [for ... of] visits them.
    - [whoisCache] is a [gmap string string].
    - The platform's [URL] class and the [string-similarity] package are not
      part of the repository; they are parameters of the model. *)

From Stdlib Require Import ZArith QArith Lia Lqa.
From stdpp Require Import base option list strings gmap pretty.

Local Open Scope nat_scope.

(** ** JavaScript strings and arrays *)

Module Js.

(** The characters of a string, in order. *)
Abbreviation chars := String.list_ascii_of_string.

(** [s.charAt(i)]: the one-character string at index [i], or the empty
    string when [i] is out of range. *)
Definition charAt (s : string) (i : nat) : string :=
  match String.get i s with
  | Some c => String c ""
  | None => ""
  end.

(** [s.startsWith(p)]. *)
Definition startsWith (s p : string) : bool := String.prefix p s.

(** [s.substring(n)]: what is left of [s] after its first [n] characters. *)
Fixpoint substring_from (n : nat) (s : string) : string :=
  match n, s with
  | 0, _ => s
  | S _, "" => ""
  | S n', String _ s' => substring_from n' s'
  end.

(** [arr[i] = v].  Inside the array the cell is replaced, at index
    [arr.length] the array grows by one.  A write further out would leave
    holes; none of the modelled code does that, and it is reported as
    [None]. *)
Definition arr_set {A} (arr : list A) (i : nat) (v : A) : option (list A) :=
  if decide (i < length arr) then Some (<[i:=v]> arr)
  else if decide (i = length arr) then Some (arr ++ [v])
  else None.

(** [m[i][j]]. *)
Definition mat_get {A} (m : list (list A)) (i j : nat) : option A :=
  row ← m !! i; row !! j.

(** [m[i][j] = v]: [m[i]] must be an array already. *)
Definition mat_set {A} (m : list (list A)) (i j : nat) (v : A)
  : option (list (list A)) :=
  row ← m !! i; row' ← arr_set row j v; arr_set m i row'.

(** [for (let i = lo; i <= hi; i++) body], threading the state. *)
Fixpoint for_each {St} (idx : list nat) (body : St → nat → option St) (s : St)
  : option St :=
  match idx with
  | [] => Some s
  | i :: idx' => s' ← body s i; for_each idx' body s'
  end.

Definition for_range {St} (lo hi : nat) (body : St → nat → option St) (s : St)
  : option St :=
  for_each (seq lo (S hi - lo)) body s.

End Js.

(** ** [levenshteinDistance] (part_000, lines 89-108) *)

Module Levenshtein.
Import Js.

Definition num (n : nat) : Q := inject_Z (Z.of_nat n).

(** Lines 94-95: the first column and the first row. *)
Definition init_column (lb : nat) : option (list (list nat)) :=
  for_range 0 lb (λ m i, arr_set m i [i]) [].

Definition init_row (la : nat) (m : list (list nat)) : option (list (list nat)) :=
  for_range 0 la (λ m j, mat_set m 0 j j) m.

(** Lines 99-103: one cell. *)
Definition fill_cell (a b : string) (i : nat) (m : list (list nat)) (j : nat)
  : option (list (list nat)) :=
  if String.eqb (charAt b (i - 1)) (charAt a (j - 1)) then
    d ← mat_get m (i - 1) (j - 1);
    mat_set m i j d
  else
    d ← mat_get m (i - 1) (j - 1);
    l ← mat_get m i (j - 1);
    u ← mat_get m (i - 1) j;
    mat_set m i j (Nat.min (d + 1) (Nat.min (l + 1) (u + 1))).

(** Lines 97-105: the two nested loops. *)
Definition fill_row (a b : string) (m : list (list nat)) (i : nat)
  : option (list (list nat)) :=
  for_range 1 (String.length a) (fill_cell a b i) m.

Definition fill (a b : string) (m : list (list nat)) : option (list (list nat)) :=
  for_range 1 (String.length b) (fill_row a b) m.

(** Lines 93-105: the matrix when the loops are done. *)
Definition matrix (a b : string) : option (list (list nat)) :=
  m ← init_column (String.length b);
  m ← init_row (String.length a) m;
  fill a b m.

(** The whole function.  The two guards return a length, the last line a
    percentage. *)
Definition levenshteinDistance (a b : string) : option Q :=
  if decide (String.length a = 0) then Some (num (String.length b))
  else if decide (String.length b = 0) then Some (num (String.length a))
  else
    m ← matrix a b;
    d ← mat_get m (String.length b) (String.length a);
    Some ((1 - num d / num (Nat.max (String.length a) (String.length b))) * 100)%Q.

End Levenshtein.

(** ** [extractMainDomain] (server.js lines 21-42, part_000 lines 17-38) *)

Module Normalizer.
Import Js.

Section WithUrl.
(** [new URL(s).hostname]: [None] when the constructor throws. *)
Variable URL_hostname : string → option string.

(** Lines 25-27: the scheme repair. *)
Definition with_scheme (inputUrl : string) : string :=
  if negb (startsWith inputUrl "http://") && negb (startsWith inputUrl "https://")
  then "https://" +:+ inputUrl
  else inputUrl.

(** Lines 32-34. *)
Definition strip_www (hostname : string) : string :=
  if startsWith hostname "www." then substring_from 4 hostname else hostname.

(** The function; [None] is the [null] of the [catch] branch. *)
Definition extractMainDomain (inputUrl : string) : option string :=
  match URL_hostname (with_scheme inputUrl) with
  | Some hostname => Some (strip_www hostname)
  | None => None
  end.
End WithUrl.

End Normalizer.

(** ** [loadDomains] (server.js lines 45-71, part_000 lines 41-67) *)

Module Loader.

(** [line.split(",")]. *)
Fixpoint split_commas (line : string) : list string :=
  match line with
  | "" => [""]
  | String c rest =>
      if Ascii.nat_of_ascii c =? 44 then "" :: split_commas rest
      else
        match split_commas rest with
        | part :: parts => String c part :: parts
        | [] => [String c ""]
        end
  end.

(** [parts.join(",")]. *)
Fixpoint join_commas (parts : list string) : string :=
  match parts with
  | [] => ""
  | [part] => part
  | part :: rest => part +:+ "," +:+ join_commas rest
  end.

(** The number of commas in a line. *)
Fixpoint count_commas (line : string) : nat :=
  match line with
  | "" => 0
  | String c rest =>
      (if Ascii.nat_of_ascii c =? 44 then 1 else 0) + count_commas rest
  end.

(** [domains.add(d)] on a [Set] kept in insertion order. *)
Definition add (d : string) (domains : list string) : list string :=
  if bool_decide (d ∈ domains) then domains else domains ++ [d].

Section WithStrings.
(** [s.trim().toLowerCase()]. *)
Variable trim_lower : string → string.

(** The ["line"] handler, lines 53-59 / 49-55. *)
Definition on_line (domains : list string) (line : string) : list string :=
  match split_commas line with
  | [_; part1] =>
      if bool_decide (part1 ≠ "original_url") then add (trim_lower part1) domains
      else domains
  | _ => domains
  end.

(** The set the promise resolves to once every line is read. *)
Definition loadDomains (lines : list string) : list string :=
  foldl on_line [] lines.
End WithStrings.

End Loader.

(** ** The WHOIS helpers *)

Module Whois.

(** What [whois.lookup(domain, options, callback)] can do. *)
Inductive outcome : Type :=
  | Throws                        (* the call itself throws *)
  | Failed                        (* callback(err, _) with [err] set *)
  | Answered (data : option string). (* callback(null, data) *)

(** [data || "No WHOIS data found."]: [undefined] and the empty string are
    falsy. *)
Definition or_no_data (data : option string) : string :=
  match data with
  | Some d => if decide (d = "") then "No WHOIS data found." else d
  | None => "No WHOIS data found."
  end.

(** [getWhoisData] of part_000 (lines 70-86): the value the promise
    resolves to. *)
Definition getWhoisData (domain : string) (o : outcome) : string :=
  match o with
  | Throws => "WHOIS data unavailable."
  | Failed => "WHOIS data unavailable due to server error."
  | Answered data => or_no_data data
  end.

(** The text [getCachedWhoisData] of server.js stores and resolves to for
    each outcome (lines 82-97). *)
Definition record_of (o : outcome) : string :=
  match o with
  | Throws => "WHOIS data unavailable."
  | Failed => "WHOIS lookup failed."
  | Answered data => or_no_data data
  end.

(** [getCachedWhoisData] (server.js lines 74-100) when nothing else runs
    between the call and its callback: the resolved value, the cache
    afterwards, and the domains handed to [whois.lookup]. *)
Definition getCachedWhoisData (whoisCache : gmap string string)
    (domain : string) (o : outcome)
  : string * gmap string string * list string :=
  match whoisCache !! domain with
  | Some cached => (cached, whoisCache, [])
  | None => (record_of o, <[domain := record_of o]> whoisCache, [domain])
  end.

(** The same function on the event loop, where other calls and callbacks
    may run between a call and its callback. *)
Record world : Type := World {
  cache : gmap string string;
  in_flight : list (nat * string);  (* call id and domain of each open query *)
  resolved : list (nat * string);   (* call id and value of each settled promise *)
  calls : nat;                      (* calls so far; the next call id *)
  queries : list string             (* domains handed to [whois.lookup], latest first *)
}.

Definition start : world := World ∅ [] [] 0 [].

Inductive event : Type :=
  | Call (domain : string) (throws : bool)
  | Callback (id : nat) (err : bool) (data : option string).

(** Lines 75-81 and 93-98: a call up to the point where it waits. *)
Definition call (w : world) (domain : string) (throws : bool) : world :=
  match cache w !! domain with
  | Some cached =>
      World (cache w) (in_flight w) ((calls w, cached) :: resolved w)
            (S (calls w)) (queries w)
  | None =>
      if throws then
        World (<[domain := "WHOIS data unavailable."]> (cache w)) (in_flight w)
              ((calls w, "WHOIS data unavailable.") :: resolved w)
              (S (calls w)) (domain :: queries w)
      else
        World (cache w) ((calls w, domain) :: in_flight w) (resolved w)
              (S (calls w)) (domain :: queries w)
  end.

(** The entry of call [id] in a list of (call id, text) pairs. *)
Definition entry_of (id : nat) (l : list (nat * string)) : option string :=
  (λ r, snd (snd r)) <$> list_find (λ q, fst q = id) l.

Definition drop_flight (id : nat) (fl : list (nat * string)) : list (nat * string) :=
  filter (λ q, fst q ≠ id) fl.

(** Lines 81-92: the callback of the query opened by call [id]. *)
Definition callback (w : world) (id : nat) (err : bool) (data : option string)
  : option world :=
  domain ← entry_of id (in_flight w);
  let result := if err then "WHOIS lookup failed." else or_no_data data in
  Some (World (<[domain := result]> (cache w)) (drop_flight id (in_flight w))
              ((id, result) :: resolved w) (calls w) (queries w)).

Definition step (w : world) (e : event) : option world :=
  match e with
  | Call domain throws => Some (call w domain throws)
  | Callback id err data => callback w id err data
  end.

Fixpoint run (w : world) (es : list event) : option world :=
  match es with
  | [] => Some w
  | e :: es' => w' ← step w e; run w' es'
  end.

(** Queries for [domain] that are open in [w]. *)
Definition open_queries (w : world) (domain : string) : nat :=
  length (filter (λ q, snd q = domain) (in_flight w)).

(** The value call [id] resolved to, if it has. *)
Definition result_of (w : world) (id : nat) : option string :=
  entry_of id (resolved w).

(** One lookup from call to completion, as events: the call with id [id]
    and, unless [whois.lookup] throws, the events [between] and then its
    callback. *)
Definition lookup_trace (id : nat) (domain : string) (o : outcome)
    (between : list event) : list event :=
  match o with
  | Throws => [Call domain true]
  | Failed => Call domain false :: between ++ [Callback id true None]
  | Answered data => Call domain false :: between ++ [Callback id false data]
  end.

(** An event that is neither a call for [domain] nor the callback of call
    [id]. *)
Definition unrelated (domain : string) (id : nat) (e : event) : Prop :=
  match e with
  | Call d _ => d ≠ domain
  | Callback i _ _ => i ≠ id
  end.

(** [domain] is not cached, and the query opened by call [id] is the only
    one open for it. *)
Definition alone_in_flight (w : world) (domain : string) (id : nat) : Prop :=
  cache w !! domain = None
  ∧ id < calls w
  ∧ entry_of id (in_flight w) = Some domain
  ∧ ∀ q, q ∈ in_flight w → q.2 = domain → q.1 = id.

(** [domain] is cached as [cached] and no query for it is open. *)
Definition settled (w : world) (domain cached : string) : Prop :=
  cache w !! domain = Some cached ∧ open_queries w domain = 0.

(** What holds of every world the server can be in. *)
Record reachable_inv (w : world) : Prop := {
  inv_cache_text : ∀ d t, cache w !! d = Some t → t ≠ "";
  inv_resolved_text : ∀ id t, (id, t) ∈ resolved w → t ≠ "";
  inv_cached_queried : ∀ d, is_Some (cache w !! d) → d ∈ queries w;
  inv_flight_queried : ∀ id d, (id, d) ∈ in_flight w → d ∈ queries w;
  inv_queries_calls : length (queries w) ≤ calls w
}.

End Whois.

(** ** The request handler *)

Module Handler.
Import Js Normalizer.

(** [req.body.suspect_url] as the body parsers can deliver it. *)
Inductive field : Type :=
  | Missing                 (* no such property *)
  | Text (s : string)
  | Other (truthy : bool).  (* a number, boolean, null, array or object *)

Definition falsy (f : field) : bool :=
  match f with
  | Missing => true
  | Text s => bool_decide (s = "")
  | Other truthy => negb truthy
  end.

Record verdict : Type := Verdict {
  suspect_url : string;
  extracted_domain : string;
  best_match_domain : option string;   (* [None] is [null] *)
  matching_accuracy : string;
  isClone : bool;
  whoisData : string
}.

Inductive response : Type :=
  | Rejected (status : nat) (error : string)
  | Json (v : verdict).

(** [req.body]: [undefined] when no body parser filled it, else an object,
    of which [field] above is the property [suspect_url]. *)
Inductive body : Type :=
  | NoBody
  | Body (f : field).

(** [x > y] on numbers. *)
Definition gt (x y : Q) : bool := negb (Qle_bool x y).

(** [x.toFixed(2)] for a number below 1e21: the sign, then the nearest
    multiple of 1/100, the larger one on a tie. *)
Definition toFixed2 (x : Q) : string :=
  let den := Z.pos (Qden x) in
  let n := Z.to_N ((200 * Z.abs (Qnum x) + den) / (2 * den)) in
  let frac := (n mod 100)%N in
  (if Qle_bool 0 x then "" else "-")
    +:+ pretty (n / 100)%N +:+ "."
    +:+ (if (frac <? 10)%N then "0" else "") +:+ pretty frac.

(** The two variables the loop updates (lines 119-120 / 127-128). *)
Record locals : Type := Locals {
  bestMatchDomain : option string;
  highestSimilarity : Q
}.

Definition init : locals := Locals None 0.

(** One round of the [for ... of] loop.  The score comes as [option Q];
    [None] is a score that is not a number, and every comparison with it
    is false. *)
Definition scan_step (score : string → option Q) (st : locals)
    (storedDomain : string) : locals :=
  match score storedDomain with
  | Some similarity =>
      if gt similarity (highestSimilarity st)
      then Locals (Some storedDomain) similarity
      else st
  | None => st
  end.

Definition scan (score : string → option Q) (storedDomains : list string) : locals :=
  foldl (scan_step score) init storedDomains.

(** Lines 107-117 / 115-125, common to both files: the field, then the
    domain.  A truthy value that is not a string has no [startsWith], the
    [catch] of [extractMainDomain] turns that into [null]. *)
Definition parse (URL_hostname : string → option string) (f : field)
  : response + (string * string) :=
  if falsy f then inl (Rejected 400 "❌ URL is required.")
  else
    match f with
    | Text url =>
        match extractMainDomain URL_hostname url with
        | Some domain =>
            if bool_decide (domain = "") then inl (Rejected 400 "❌ Invalid URL format.")
            else inr (url, domain)
        | None => inl (Rejected 400 "❌ Invalid URL format.")
        end
    | _ => inl (Rejected 400 "❌ Invalid URL format.")
    end.

(** Lines 122-132 / 130-140: the answer for a stored domain. *)
Definition verified (url domain : string) : verdict :=
  Verdict url domain (Some domain) "100%" false
          "WHOIS lookup skipped for verified domains.".

End Handler.

(** *** server.js *)

Module Backend.
Import Js Normalizer Whois Handler.

Section WithPlatform.
Variable URL_hostname : string → option string.
(** [stringSimilarity.compareTwoStrings]. *)
Variable compareTwoStrings : string → string → Q.

(** Line 136. *)
Definition similarity (suspect_domain storedDomain : string) : option Q :=
  Some (compareTwoStrings suspect_domain storedDomain * 100)%Q.

(** What one request does: the response, the two loop variables when the
    handler returns (their initial values if it returns before the loop),
    the cache afterwards, the calls of [getCachedWhoisData] and the calls
    of [whois.lookup]. *)
Record reply : Type := Reply {
  sent : response;
  vars : locals;
  cache_after : gmap string string;
  lookups : list string;
  whois_queries : list string
}.

(** [app.post("/check-clone", ...)], lines 103-159.  [o] is what
    [whois.lookup] does if it gets called. *)
Definition check_clone (storedDomains : list string)
    (whoisCache : gmap string string) (o : outcome) (f : field) : reply :=
  match parse URL_hostname f with
  | inl r => Reply r init whoisCache [] []
  | inr (url, suspect_domain) =>
      if bool_decide (suspect_domain ∈ storedDomains) then
        Reply (Json (verified url suspect_domain)) init whoisCache [] []
      else
        let st := scan (similarity suspect_domain) storedDomains in
        if gt (highestSimilarity st) 80 then
          let '(whoisData, whoisCache', asked) :=
            getCachedWhoisData whoisCache suspect_domain o in
          Reply (Json (Verdict url suspect_domain (bestMatchDomain st)
                         (toFixed2 (highestSimilarity st) +:+ "%")
                         (gt (highestSimilarity st) 80) whoisData))
                st whoisCache' [suspect_domain] asked
        else
          Reply (Json (Verdict url suspect_domain (bestMatchDomain st)
                         (toFixed2 (highestSimilarity st) +:+ "%")
                         (gt (highestSimilarity st) 80)
                         "WHOIS lookup skipped due to low similarity."))
                st whoisCache [] []
  end.

(** The handler with its [try ... catch] (lines 104 and 155-158).  Reading
    [suspect_url] off a body that is [undefined] throws, and the [catch]
    answers 500; with a body the [try] block runs to its end. *)
Definition handle (storedDomains : list string)
    (whoisCache : gmap string string) (o : outcome) (b : body) : reply :=
  match b with
  | NoBody => Reply (Rejected 500 "❌ Internal Server Error") init whoisCache [] []
  | Body f => check_clone storedDomains whoisCache o f
  end.

End WithPlatform.

End Backend.

(** *** part_000 *)

Module Part000.
Import Js Normalizer Whois Handler Levenshtein.

Section WithPlatform.
Variable URL_hostname : string → option string.

(** What one request does: the response, the two loop variables when the
    handler returns, and the calls of [getWhoisData], each of which calls
    [whois.lookup]. *)
Record reply : Type := Reply {
  sent : response;
  vars : locals;
  lookups : list string
}.

(** [app.post("/check-clone", ...)], lines 111-166. *)
Definition check_clone (storedDomains : list string) (o : outcome) (f : field)
  : reply :=
  match parse URL_hostname f with
  | inl r => Reply r init []
  | inr (url, suspect_domain) =>
      if bool_decide (suspect_domain ∈ storedDomains) then
        Reply (Json (verified url suspect_domain)) init []
      else
        let st := scan (levenshteinDistance suspect_domain) storedDomains in
        let whoisData := getWhoisData suspect_domain o in
        Reply (Json (Verdict url suspect_domain (bestMatchDomain st)
                       (toFixed2 (highestSimilarity st) +:+ "%")
                       (gt (highestSimilarity st) 80) whoisData))
              st [suspect_domain]
  end.

(** The handler with its [try ... catch] (lines 112 and 162-165). *)
Definition handle (storedDomains : list string) (o : outcome) (b : body) : reply :=
  match b with
  | NoBody => Reply (Rejected 500 "❌ Internal Server Error") init []
  | Body f => check_clone storedDomains o f
  end.

End WithPlatform.

End Part000.

(** ** The words of the specification *)

Module Spec.

Section EditDistance.
Context {A : Type} `{EqDecision A}.

(** [edits a b n]: [a] becomes [b] by [n] single-character insertions,
    deletions and substitutions, read off an alignment of the two. *)
Inductive edits : list A → list A → nat → Prop :=
  | edits_nil : edits [] [] 0
  | edits_keep x a b n : edits a b n → edits (x :: a) (x :: b) n
  | edits_subst x y a b n : edits a b n → edits (x :: a) (y :: b) (S n)
  | edits_delete x a b n : edits a b n → edits (x :: a) b (S n)
  | edits_insert y a b n : edits a b n → edits a (y :: b) (S n).

(** The Levenshtein recursion. *)
Fixpoint lev (a : list A) : list A → nat :=
  fix lev_a (b : list A) : nat :=
    match a, b with
    | [], _ => length b
    | _, [] => length a
    | x :: a', y :: b' =>
        if decide (x = y) then lev a' b'
        else S (Nat.min (lev a' b') (Nat.min (lev a' b) (lev_a b')))
    end.
End EditDistance.

(** The Levenshtein edit distance between two strings. *)
Definition levenshtein_distance (a b : string) : nat :=
  lev (String.list_ascii_of_string a) (String.list_ascii_of_string b).

(** The normalized similarity of section 4.2:
    [(1 - distance / max(len(a), len(b))) * 100]. *)
Definition similarity (a b : string) : Q :=
  ((1 - Levenshtein.num (levenshtein_distance a b)
          / Levenshtein.num (Nat.max (String.length a) (String.length b))) * 100)%Q.

End Spec.

(** ** The matrix of [levenshteinDistance], cell by cell

    What the loops of lines 94-105 are shown to build, stated with the
    recursion above. *)

Module Table.
Import Spec.

Section Matrix.
Variables a b : string.

(** Row [i], column [j]: the distance between the first [j] characters
    of [a] and the first [i] characters of [b], both read backwards. *)
Definition cell (i j : nat) : nat :=
  lev (reverse (take j (String.list_ascii_of_string a)))
      (reverse (take i (String.list_ascii_of_string b))).

Definition full_row (i : nat) : list nat :=
  cell i <$> seq 0 (S (String.length a)).

(** The matrix before row [i] is filled. *)
Definition rows_done (i : nat) : list (list nat) :=
  (full_row <$> seq 0 i) ++ ((λ k, [k]) <$> seq i (S (String.length b) - i)).

(** The matrix when row [i] holds its first [j] cells. *)
Definition row_partial (i j : nat) : list (list nat) :=
  (full_row <$> seq 0 i) ++ [cell i <$> seq 0 j]
    ++ ((λ k, [k]) <$> seq (S i) (String.length b - i)).
End Matrix.

End Table.

(** ** A hostname function for the closed examples

    On an input of the shape [http(s)://host] or [http(s)://host/...],
    [host] made of lower-case letters and dots, the URL parser returns
    [host] as the hostname, and it throws when [host] is empty.
    [hostname] below covers that shape only.  It also answers [None]
    outside it, where the parser may well succeed: it serves to run the
    handlers on concrete requests, and nothing is derived from a [None]
    answer other than the one for an empty host. *)

Module Demo.

Definition host_char (c : Ascii.ascii) : bool :=
  let n := Ascii.nat_of_ascii c in
  (97 <=? n) && (n <=? 122) || (n =? 46).

Fixpoint split_host (s : string) : string * string :=
  match s with
  | String c s' =>
      if host_char c then let '(h, rest) := split_host s' in (String c h, rest)
      else ("", s)
  | "" => ("", "")
  end.

Definition after_scheme (url : string) : option string :=
  if Js.startsWith url "https://" then Some (Js.substring_from 8 url)
  else if Js.startsWith url "http://" then Some (Js.substring_from 7 url)
  else None.

Definition hostname (url : string) : option string :=
  s ← after_scheme url;
  let '(h, rest) := split_host s in
  if bool_decide (h = "") then None
  else
    match rest with
    | "" => Some h
    | String c _ => if Ascii.nat_of_ascii c =? 47 then Some h else None
    end.

(** A stand-in for [compareTwoStrings] that answers [x] on every pair. *)
Definition flat (x : Q) : string → string → Q := λ _ _, x.

(** A host name of 101 characters. *)
Definition long_host : string :=
  "abcdefghi.abcdefghi.abcdefghi.abcdefghi.abcdefghi.abcdefghi.abcdefghi.abcdefghi.abcdefghi.abcdefg.com".

End Demo.

(** * Properties *)

(** ** The edit distance *)

Module EditDistance.
Import Spec.

Section Facts.
Context {A : Type} `{EqDecision A}.
Implicit Types (a b : list A) (x y : A).

Lemma lev_nil_l b : lev [] b = length b.
Proof. by destruct b. Qed.

Lemma lev_nil_r a : lev a [] = length a.
Proof. by destruct a. Qed.

Lemma lev_cons x y a b :
  lev (x :: a) (y :: b) =
    if decide (x = y) then lev a b
    else S (Nat.min (lev a b) (Nat.min (lev a (y :: b)) (lev (x :: a) b))).
Proof. done. Qed.

Lemma lev_cons_same x a b : lev (x :: a) (x :: b) = lev a b.
Proof. rewrite lev_cons. by case_decide. Qed.

Lemma lev_sym a b : lev a b = lev b a.
Proof.
  revert b. induction a as [|x a IHa]; intros b.
  { by rewrite lev_nil_l, lev_nil_r. }
  induction b as [|y b IHb].
  { by rewrite lev_nil_l, lev_nil_r. }
  rewrite !lev_cons, IHb, (IHa b), (IHa (y :: b)).
  repeat case_decide; try congruence. f_equal. lia.
Qed.

Lemma lev_refl a : lev a a = 0.
Proof. induction a as [|x a IH]; [done|]. by rewrite lev_cons_same. Qed.

Lemma lev_le_max a b : lev a b ≤ Nat.max (length a) (length b).
Proof.
  revert b. induction a as [|x a IHa]; intros b.
  { rewrite lev_nil_l. lia. }
  destruct b as [|y b].
  { rewrite lev_nil_r. lia. }
  rewrite lev_cons. specialize (IHa b). simpl. case_decide; lia.
Qed.

(** One more character on either side moves the distance by at most
    one, in both directions. *)
Lemma lev_step_aux n :
  ∀ a b, length a + length b ≤ n →
    (∀ x, lev (x :: a) b ≤ S (lev a b)) ∧ (∀ y, lev a b ≤ S (lev a (y :: b))).
Proof.
  induction n as [n IH] using lt_wf_ind. intros a b Hn. split.
  - intros x. destruct b as [|y b].
    { rewrite !lev_nil_r. simpl. lia. }
    rewrite lev_cons. case_decide as Hxy; [|lia].
    simpl in Hn. apply (IH (length a + length b)); lia.
  - intros y. destruct a as [|x a].
    { rewrite !lev_nil_l. simpl. lia. }
    rewrite (lev_cons x y). simpl in Hn.
    destruct (IH (length a + length b) ltac:(lia) a b ltac:(lia)) as [Hup Hdown].
    specialize (Hup x). specialize (Hdown y).
    case_decide; lia.
Qed.

Lemma lev_cons_l_le x a b : lev (x :: a) b ≤ S (lev a b).
Proof. by eapply lev_step_aux. Qed.

Lemma lev_cons_r_le y a b : lev a (y :: b) ≤ S (lev a b).
Proof. rewrite (lev_sym a (y :: b)), (lev_sym a b). apply lev_cons_l_le. Qed.

(** [lev] is the cost of some alignment ... *)
Lemma edits_nil_l b : edits [] b (length b).
Proof. induction b; simpl; by constructor. Qed.

Lemma edits_nil_r a : edits a [] (length a).
Proof. induction a; simpl; by constructor. Qed.

Lemma lev_edits a b : edits a b (lev a b).
Proof.
  revert b. induction a as [|x a IHa]; intros b.
  { rewrite lev_nil_l. apply edits_nil_l. }
  induction b as [|y b IHb].
  { rewrite lev_nil_r. apply edits_nil_r. }
  rewrite lev_cons. case_decide as Hxy.
  { subst. by apply edits_keep. }
  destruct (Nat.min_spec (lev a b) (Nat.min (lev a (y :: b)) (lev (x :: a) b)))
    as [[_ ->]|[_ ->]].
  { by apply edits_subst. }
  destruct (Nat.min_spec (lev a (y :: b)) (lev (x :: a) b)) as [[_ ->]|[_ ->]].
  - by apply edits_delete.
  - by apply edits_insert.
Qed.

(** ... and no alignment is cheaper. *)
Lemma lev_least a b n : edits a b n → lev a b ≤ n.
Proof.
  induction 1 as [|x a b n _ IH|x y a b n _ IH|x a b n _ IH|y a b n _ IH].
  - done.
  - by rewrite lev_cons_same.
  - rewrite lev_cons. case_decide; lia.
  - pose proof (lev_cons_l_le x a b). lia.
  - pose proof (lev_cons_r_le y a b). lia.
Qed.

(** Alignments can be extended at the far end as well. *)
Lemma edits_snoc_keep x a b n : edits a b n → edits (a ++ [x]) (b ++ [x]) n.
Proof. induction 1; simpl; try by constructor. apply edits_keep, edits_nil. Qed.

Lemma edits_snoc_subst x y a b n :
  edits a b n → edits (a ++ [x]) (b ++ [y]) (S n).
Proof. induction 1; simpl; try by constructor. apply edits_subst, edits_nil. Qed.

Lemma edits_snoc_delete x a b n : edits a b n → edits (a ++ [x]) b (S n).
Proof. induction 1; simpl; try by constructor. apply edits_delete, edits_nil. Qed.

Lemma edits_snoc_insert y a b n : edits a b n → edits a (b ++ [y]) (S n).
Proof. induction 1; simpl; try by constructor. apply edits_insert, edits_nil. Qed.

Lemma edits_reverse a b n : edits a b n → edits (reverse a) (reverse b) n.
Proof.
  induction 1; rewrite ?reverse_cons.
  - constructor.
  - by apply edits_snoc_keep.
  - by apply edits_snoc_subst.
  - by apply edits_snoc_delete.
  - by apply edits_snoc_insert.
Qed.

Lemma lev_reverse a b : lev (reverse a) (reverse b) = lev a b.
Proof.
  apply Nat.le_antisymm.
  - apply lev_least, edits_reverse, lev_edits.
  - rewrite <- (reverse_involutive a), <- (reverse_involutive b) at 1.
    apply lev_least, edits_reverse, lev_edits.
Qed.
(** *** Distance zero, and the difference of the lengths *)

Lemma lev_zero a b : lev a b = 0 → a = b.
Proof.
  revert b. induction a as [|x a IH]; intros [|y b].
  - done.
  - by rewrite lev_nil_l.
  - by rewrite lev_nil_r.
  - rewrite lev_cons. case_decide as Hxy; [|done]. intros ?%IH. congruence.
Qed.

Lemma lev_ge_length a b : length a ≤ lev a b + length b.
Proof.
  revert b. induction a as [|x a IHa]; intros b.
  { simpl. lia. }
  induction b as [|y b IHb].
  { rewrite lev_nil_r. lia. }
  rewrite lev_cons. pose proof (IHa b). pose proof (IHa (y :: b)).
  simpl in *. case_decide; lia.
Qed.

End Facts.

End EditDistance.

Module LevenshteinFacts.
Import Js Levenshtein Spec Table EditDistance.

Lemma length_chars s : length (chars s) = String.length s.
Proof. induction s; simpl; congruence. Qed.

Lemma get_chars s i : String.get i s = chars s !! i.
Proof. revert i. induction s as [|c s IH]; intros [|i]; simpl; auto. Qed.

Lemma charAt_eqb a b i j x y :
  chars b !! i = Some y → chars a !! j = Some x →
  String.eqb (charAt b i) (charAt a j) = bool_decide (x = y).
Proof.
  intros Hb Ha. unfold charAt. rewrite !get_chars, Hb, Ha.
  case_bool_decide as Hxy.
  - subst. apply String.eqb_refl.
  - apply String.eqb_neq. congruence.
Qed.

Lemma for_each_seq {St} (body : St → nat → option St) (f : nat → St) lo n s s' :
  s = f lo → s' = f (lo + n) →
  (∀ k, lo ≤ k < lo + n → body (f k) k = Some (f (S k))) →
  for_each (seq lo n) body s = Some s'.
Proof.
  intros -> ->. revert lo. induction n as [|n IH]; intros lo Hbody; simpl.
  { by rewrite Nat.add_0_r. }
  rewrite Hbody by lia. simpl. rewrite IH.
  - f_equal. f_equal. lia.
  - intros k ?. apply Hbody. lia.
Qed.

Lemma arr_set_push {A} (arr : list A) v :
  arr_set arr (length arr) v = Some (arr ++ [v]).
Proof. unfold arr_set. repeat case_decide; (done || lia). Qed.

Lemma arr_set_inside {A} (arr : list A) i v :
  i < length arr → arr_set arr i v = Some (<[i:=v]> arr).
Proof. intros. unfold arr_set. by case_decide. Qed.

Lemma init_column_ok n :
  init_column n = Some ((λ k, [k]) <$> seq 0 (S n)).
Proof.
  unfold init_column, for_range. rewrite Nat.sub_0_r.
  apply (for_each_seq _ (λ k, (λ k, [k]) <$> seq 0 k)); [done..|].
  intros k _. rewrite seq_S, fmap_app. simpl.
  rewrite <- arr_set_push. f_equal. by rewrite length_fmap, length_seq.
Qed.

Section Matrix.
Variables a b : string.

Lemma cell_row_0 j : j ≤ String.length a → cell a b 0 j = j.
Proof.
  rewrite <- length_chars. intros. unfold cell.
  rewrite take_0, reverse_nil, lev_nil_r, length_reverse, length_take. lia.
Qed.

Lemma cell_col_0 i : i ≤ String.length b → cell a b i 0 = i.
Proof.
  rewrite <- length_chars. intros. unfold cell.
  rewrite take_0, reverse_nil, lev_nil_l, length_reverse, length_take. lia.
Qed.

Lemma cell_S_S i j x y :
  (chars a) !! j = Some x → (chars b) !! i = Some y →
  cell a b (S i) (S j) =
    if decide (x = y) then cell a b i j
    else S (Nat.min (cell a b i j) (Nat.min (cell a b (S i) j) (cell a b i (S j)))).
Proof.
  intros Hx Hy. unfold cell.
  rewrite (take_S_r _ _ _ Hx), (take_S_r _ _ _ Hy), !reverse_snoc.
  apply lev_cons.
Qed.

Lemma row_partial_start i :
  i ≤ String.length b → row_partial a b i 1 = rows_done a b i.
Proof.
  intros. unfold row_partial, rows_done. f_equal.
  replace (S (String.length b) - i) with (S (String.length b - i)) by lia.
  simpl. by rewrite cell_col_0.
Qed.

Lemma row_partial_end i :
  i ≤ String.length b → row_partial a b i (S (String.length a)) = rows_done a b (S i).
Proof.
  intros. unfold row_partial, rows_done.
  rewrite (seq_S i), fmap_app, <- app_assoc. simpl. done.
Qed.

Lemma row_partial_get_done i j i' j' :
  i' < i → j' ≤ String.length a →
  mat_get (row_partial a b i j) i' j' = Some (cell a b i' j').
Proof.
  intros. unfold mat_get, row_partial.
  rewrite lookup_app_l by (by rewrite length_fmap, length_seq).
  rewrite list_lookup_fmap, lookup_seq_lt by done. simpl.
  unfold full_row. rewrite list_lookup_fmap, lookup_seq_lt by lia. done.
Qed.

Lemma row_partial_row i j :
  row_partial a b i j !! i = Some (cell a b i <$> seq 0 j).
Proof.
  unfold row_partial.
  rewrite lookup_app_r by (by rewrite length_fmap, length_seq).
  rewrite length_fmap, length_seq, Nat.sub_diag. done.
Qed.

Lemma row_partial_get_cur i j j' :
  j' < j → mat_get (row_partial a b i j) i j' = Some (cell a b i j').
Proof.
  intros. unfold mat_get. rewrite row_partial_row. simpl.
  rewrite list_lookup_fmap, lookup_seq_lt by lia. done.
Qed.

Lemma row_partial_set i j :
  mat_set (row_partial a b i j) i j (cell a b i j) = Some (row_partial a b i (S j)).
Proof.
  unfold mat_set. rewrite row_partial_row. simpl.
  replace (arr_set (cell a b i <$> seq 0 j) j (cell a b i j))
    with (Some (cell a b i <$> seq 0 (S j))).
  2:{ rewrite seq_S, fmap_app. simpl. rewrite <- arr_set_push.
      by rewrite length_fmap, length_seq. }
  simpl. unfold row_partial at 1.
  rewrite arr_set_inside.
  2:{ rewrite length_app, length_fmap, length_seq. simpl. lia. }
  f_equal. unfold row_partial.
  rewrite insert_app_r_alt by (by rewrite length_fmap, length_seq).
  rewrite length_fmap, length_seq, Nat.sub_diag. done.
Qed.

(** One round of the inner loop writes the next cell a b of the row. *)
Lemma fill_cell_ok i j :
  1 ≤ i ≤ String.length b → 1 ≤ j ≤ String.length a →
  fill_cell a b i (row_partial a b i j) j = Some (row_partial a b i (S j)).
Proof.
  intros Hi Hj. unfold fill_cell.
  destruct (lookup_lt_is_Some_2 (chars a) (j - 1)) as [x Hx]; [rewrite length_chars; lia|].
  destruct (lookup_lt_is_Some_2 (chars b) (i - 1)) as [y Hy]; [rewrite length_chars; lia|].
  rewrite (charAt_eqb _ _ _ _ x y) by done.
  rewrite !row_partial_get_done by lia.
  pose proof (cell_S_S (i - 1) (j - 1) x y Hx Hy) as Hc.
  replace (S (i - 1)) with i in Hc by lia.
  replace (S (j - 1)) with j in Hc by lia.
  case_bool_decide as Hxy; simpl.
  - rewrite decide_True in Hc by done. rewrite <- Hc. apply row_partial_set.
  - rewrite decide_False in Hc by done.
    rewrite row_partial_get_cur by lia. simpl.
    replace (Nat.min (cell a b (i - 1) (j - 1) + 1)
               (Nat.min (cell a b i (j - 1) + 1) (cell a b (i - 1) j + 1)))
      with (cell a b i j) by lia.
    apply row_partial_set.
Qed.

(** One round of the outer loop completes a row. *)
Lemma fill_row_ok i :
  1 ≤ i ≤ String.length b → fill_row a b (rows_done a b i) i = Some (rows_done a b (S i)).
Proof.
  intros Hi. unfold fill_row, for_range.
  apply (for_each_seq _ (row_partial a b i)).
  - by rewrite row_partial_start by lia.
  - rewrite <- row_partial_end by lia. f_equal. lia.
  - intros j ?. apply fill_cell_ok; lia.
Qed.

Lemma init_row_ok :
  init_row (String.length a) ((λ k, [k]) <$> seq 0 (S (String.length b)))
  = Some (rows_done a b 1).
Proof.
  unfold init_row, for_range. rewrite Nat.sub_0_r.
  set (rest := (λ k, [k]) <$> seq 1 (String.length b)).
  set (f := λ j, seq 0 (Nat.max 1 j) :: rest).
  apply (for_each_seq _ f); [done| |].
  2:{ intros j Hj. unfold f, mat_set. simpl.
    destruct j as [|j]; [done|].
    replace (Nat.max 1 (S j)) with (S j) by lia.
    replace (Nat.max 1 (S (S j))) with (S (S j)) by lia.
    replace (arr_set (seq 0 (S j)) (S j) (S j)) with (Some (seq 0 (S (S j)))).
    + done.
    + rewrite (seq_S (S j)). rewrite <- arr_set_push. by rewrite length_seq. }
  unfold f, rows_done, rest. simpl. rewrite Nat.sub_0_r. f_equal.
  unfold full_row.
  change (0 :: seq 1 (String.length a)) with (seq 0 (S (String.length a))).
  rewrite <- (list_fmap_id (seq 0 (S (String.length a)))) at 2.
  apply list_fmap_ext. intros k j Hk. apply lookup_seq in Hk as [-> ?].
  simpl. apply cell_row_0. lia.
Qed.

Lemma fill_ok : fill a b (rows_done a b 1) = Some (rows_done a b (S (String.length b))).
Proof.
  unfold fill, for_range.
  apply (for_each_seq _ (rows_done a b)); [done|f_equal; lia|].
  intros i ?. apply fill_row_ok. lia.
Qed.

(** The loops always run to the end, and leave the table of distances
    between prefixes. *)
Lemma matrix_ok : matrix a b = Some (full_row a b <$> seq 0 (S (String.length b))).
Proof.
  unfold matrix.
  rewrite init_column_ok. cbv [mbind option_bind].
  rewrite init_row_ok, fill_ok. f_equal. unfold rows_done.
  by rewrite Nat.sub_diag, app_nil_r.
Qed.

(** The cell a b the last line reads is the edit distance of the two strings. *)
Lemma matrix_corner m :
  matrix a b = Some m →
  mat_get m (String.length b) (String.length a) = Some (levenshtein_distance a b).
Proof.
  intros Hm. rewrite matrix_ok in Hm. apply (inj Some) in Hm as <-.
  unfold mat_get.
  rewrite list_lookup_fmap, lookup_seq_lt by lia. simpl.
  unfold full_row. rewrite list_lookup_fmap, lookup_seq_lt by lia. simpl.
  f_equal. unfold cell. rewrite !take_ge by (rewrite length_chars; lia).
  apply lev_reverse.
Qed.
End Matrix.

(** *** The function as a whole *)

Lemma num_le n m : n ≤ m → (num n <= num m)%Q.
Proof. intros. unfold num. rewrite <- Zle_Qle. lia. Qed.

Lemma num_pos n : 0 < n → (0 < num n)%Q.
Proof. intros. unfold num. change 0%Q with (inject_Z 0). rewrite <- Zlt_Qlt. lia. Qed.

Lemma percent_bounds d m :
  d ≤ m → 0 < m → (0 <= (1 - num d / num m) * 100 <= 100)%Q.
Proof.
  intros Hd Hm. pose proof (num_pos m Hm) as Hm'.
  assert (0 <= num d / num m <= 1)%Q as [? ?]; [|split; lra].
  split.
  - apply Qle_shift_div_l; [done|]. rewrite Qmult_0_l. apply (num_le 0). lia.
  - apply Qle_shift_div_r; [done|]. rewrite Qmult_1_l. by apply num_le.
Qed.

Lemma length_0_empty s : String.length s = 0 ↔ s = "".
Proof. destruct s; simpl; split; (done || lia || congruence). Qed.

(** On two non-empty strings the function returns the formula of the
    specification. *)
Lemma levenshteinDistance_formula a b :
  a ≠ "" → b ≠ "" → levenshteinDistance a b = Some (similarity a b).
Proof.
  intros Ha Hb. unfold levenshteinDistance.
  rewrite !decide_False by (by rewrite length_0_empty).
  rewrite matrix_ok. cbv [mbind option_bind].
  by rewrite (matrix_corner a b _ (matrix_ok a b)).
Qed.

Lemma levenshteinDistance_empty_l b :
  levenshteinDistance "" b = Some (num (String.length b)).
Proof. done. Qed.

Lemma levenshteinDistance_empty_r a :
  levenshteinDistance a "" = Some (num (String.length a)).
Proof. unfold levenshteinDistance. simpl. by destruct a. Qed.

(** The function always returns a number. *)
Lemma levenshteinDistance_total a b : is_Some (levenshteinDistance a b).
Proof.
  destruct (decide (a = "")) as [->|Ha]; [by rewrite levenshteinDistance_empty_l|].
  destruct (decide (b = "")) as [->|Hb]; [by rewrite levenshteinDistance_empty_r|].
  by rewrite levenshteinDistance_formula.
Qed.

Lemma levenshtein_distance_sym a b :
  levenshtein_distance a b = levenshtein_distance b a.
Proof. apply lev_sym. Qed.

Lemma similarity_sym a b : similarity a b = similarity b a.
Proof. unfold similarity. by rewrite levenshtein_distance_sym, Nat.max_comm. Qed.

Lemma similarity_bounds a b :
  a ≠ "" → (0 <= similarity a b <= 100)%Q.
Proof.
  intros Ha. apply percent_bounds.
  - unfold levenshtein_distance. rewrite <- !length_chars. apply lev_le_max.
  - rewrite <- length_0_empty in Ha. lia.
Qed.

(** On non-empty strings the score is a percentage, and 100 on equal
    strings. *)
Lemma levenshteinDistance_bounds a b :
  a ≠ "" → b ≠ "" →
  ∃ q, levenshteinDistance a b = Some q ∧ (0 <= q <= 100)%Q.
Proof.
  intros Ha Hb. exists (similarity a b). split.
  - by apply levenshteinDistance_formula.
  - by apply similarity_bounds.
Qed.

Lemma levenshteinDistance_same a :
  a ≠ "" → ∃ q, levenshteinDistance a a = Some q ∧ (q == 100)%Q.
Proof.
  intros Ha. exists (similarity a a). split.
  - by apply levenshteinDistance_formula.
  - unfold similarity, levenshtein_distance. rewrite lev_refl.
    change (num 0) with 0%Q. unfold Qdiv. rewrite Qmult_0_l. lra.
Qed.

(** *** The score of two non-empty strings: 100 and the lengths *)

Lemma chars_inj a b : chars a = chars b → a = b.
Proof.
  intros H. rewrite <- (String.string_of_list_ascii_of_string a),
    <- (String.string_of_list_ascii_of_string b). by rewrite H.
Qed.

Lemma num_add n m : (num (n + m) == num n + num m)%Q.
Proof. unfold num. by rewrite Nat2Z.inj_add, inject_Z_plus. Qed.

Lemma ratio_times d m : 0 < m → (num d / num m * num m == num d)%Q.
Proof.
  intros Hm. rewrite Qmult_comm. apply Qmult_div_r. intros H0.
  pose proof (num_pos m Hm) as Hp. rewrite H0 in Hp. by apply Qlt_irrefl in Hp.
Qed.

Lemma percent_100_iff d m :
  0 < m → ((1 - num d / num m) * 100 == 100)%Q ↔ d = 0.
Proof.
  intros Hm. pose proof (num_pos m Hm) as Hp.
  pose proof (ratio_times d m Hm) as Hr. split.
  - intros Heq. assert (num d / num m == 0)%Q as H0.
    { clear Hr Hp. revert Heq. generalize (num d / num m)%Q. intros x Hx. lra. }
    rewrite H0, Qmult_0_l in Hr. unfold num, Qeq in Hr. simpl in Hr. lia.
  - intros ->. clear Hr Hp. change (num 0) with 0%Q. unfold Qdiv.
    rewrite Qmult_0_l. lra.
Qed.

Lemma percent_cap d m k :
  0 < m → m ≤ d + k →
  ((1 - num d / num m) * 100 * num m <= 100 * num k)%Q.
Proof.
  intros Hm Hk. pose proof (ratio_times d m Hm) as Hr.
  pose proof (num_le _ _ Hk) as Hle. rewrite num_add in Hle.
  assert ((1 - num d / num m) * 100 * num m
          == 100 * num m - 100 * (num d / num m * num m))%Q as -> by ring.
  rewrite Hr. clear Hr. revert Hle. generalize (num m), (num d), (num k).
  intros. lra.
Qed.

Lemma matrix_cell a b i j :
  i ≤ String.length b → j ≤ String.length a →
  ∃ m, matrix a b = Some m ∧ length m = S (String.length b)
       ∧ mat_get m i j = Some (lev (take j (chars a)) (take i (chars b))).
Proof.
  intros Hi Hj. eexists. split; [apply matrix_ok|].
  rewrite length_fmap, length_seq. split; [done|].
  unfold mat_get. rewrite list_lookup_fmap, lookup_seq_lt by lia. simpl.
  unfold full_row. rewrite list_lookup_fmap, lookup_seq_lt by lia. simpl.
  f_equal. apply lev_reverse.
Qed.

Lemma similarity_100_iff a b :
  a ≠ "" → (similarity a b == 100)%Q ↔ a = b.
Proof.
  intros Ha. unfold similarity. rewrite percent_100_iff.
  2:{ rewrite <- length_0_empty in Ha. lia. }
  unfold levenshtein_distance. split.
  - intros ?%lev_zero. by apply chars_inj.
  - intros ->. apply lev_refl.
Qed.

Lemma similarity_length_cap a b :
  a ≠ "" →
  (similarity a b * num (Nat.max (String.length a) (String.length b))
   <= 100 * num (Nat.min (String.length a) (String.length b)))%Q.
Proof.
  intros Ha. unfold similarity. apply percent_cap.
  - rewrite <- length_0_empty in Ha. lia.
  - unfold levenshtein_distance. rewrite <- !length_chars.
    pose proof (lev_ge_length (chars a) (chars b)).
    pose proof (lev_ge_length (chars b) (chars a)).
    rewrite (lev_sym (chars b)) in *. lia.
Qed.

Lemma above_80_lengths h M m :
  0 < M → (80 < h)%Q → (h * num M <= 100 * num m)%Q → 4 * M < 5 * m.
Proof.
  intros HM Hh Hcap.
  assert (0 < num M)%Q as HM' by (by apply num_pos).
  assert (80 * num M < 100 * num m)%Q as Hlt.
  { eapply Qlt_le_trans; [|exact Hcap]. by apply Qmult_lt_compat_r. }
  unfold num, Qlt in Hlt. simpl in Hlt. lia.
Qed.

End LevenshteinFacts.

(** ** The loader *)

Module LoaderFacts.
Import Loader.

(** A line whose second field is empty puts the empty string among the
    stored domains. *)
Lemma loadDomains_empty_field trim_lower :
  trim_lower "" = "" →
  loadDomains trim_lower ["id,original_url"; "1,"] = [""].
Proof. intros H. unfold loadDomains, on_line. simpl. by rewrite H. Qed.

(** *** [split] and the set the lines build *)

Lemma comma_char c : Ascii.nat_of_ascii c = 44 → String c "" = ",".
Proof.
  intros H. rewrite <- (Ascii.ascii_nat_embedding c), H. reflexivity.
Qed.

Lemma split_commas_cons line : ∃ part parts, split_commas line = part :: parts.
Proof.
  induction line as [|c rest (p & ps & IH)]; simpl; [by eauto|].
  destruct (Ascii.nat_of_ascii c =? 44); [by eauto|]. rewrite IH. by eauto.
Qed.

Lemma join_commas_String c part parts :
  join_commas (String c part :: parts) = String c (join_commas (part :: parts)).
Proof. by destruct parts. Qed.

Lemma join_split_commas line : join_commas (split_commas line) = line.
Proof.
  induction line as [|c rest IH]; simpl; [done|].
  destruct (split_commas_cons rest) as (p & ps & Hs). rewrite Hs in *.
  destruct (Ascii.nat_of_ascii c =? 44) eqn:Hc.
  - apply Nat.eqb_eq, comma_char in Hc.
    change (join_commas ("" :: p :: ps)) with ("," +:+ join_commas (p :: ps)).
    rewrite IH, <- Hc. done.
  - by rewrite join_commas_String, IH.
Qed.

Lemma length_split_commas line :
  length (split_commas line) = S (count_commas line).
Proof.
  induction line as [|c rest IH]; simpl; [done|].
  destruct (split_commas_cons rest) as (p & ps & Hs). rewrite Hs in *.
  destruct (Ascii.nat_of_ascii c =? 44); simpl in *; lia.
Qed.

Lemma split_commas_parts line :
  Forall (λ part, count_commas part = 0) (split_commas line).
Proof.
  induction line as [|c rest IH]; simpl; [by repeat constructor|].
  destruct (split_commas_cons rest) as (p & ps & Hs). rewrite Hs in *.
  apply Forall_cons in IH as [Hp Hps].
  destruct (Ascii.nat_of_ascii c =? 44) eqn:Hc.
  - by repeat constructor.
  - constructor; [|done]. simpl. by rewrite Hc.
Qed.

Lemma elem_of_add x d domains : x ∈ add d domains ↔ x = d ∨ x ∈ domains.
Proof.
  unfold add. case_bool_decide as Hd.
  - split; [by right|]. by intros [->|].
  - rewrite elem_of_app, list_elem_of_singleton. tauto.
Qed.

Lemma NoDup_add d domains : NoDup domains → NoDup (add d domains).
Proof.
  intros Hn. unfold add. case_bool_decide as Hd; [done|].
  apply NoDup_app. split_and!; [done| |apply NoDup_singleton].
  intros x Hx ->%list_elem_of_singleton. done.
Qed.

Lemma add_present d domains : d ∈ domains → add d domains = domains.
Proof. intros. unfold add. by rewrite bool_decide_eq_true_2. Qed.

Section WithStrings.
Variable trim_lower : string → string.

(** What a line contributes, if anything. *)
Lemma on_line_cases domains line :
  (∃ part0 part1, split_commas line = [part0; part1] ∧ part1 ≠ "original_url"
     ∧ on_line trim_lower domains line = add (trim_lower part1) domains)
  ∨ ((∀ part0 part1, split_commas line = [part0; part1] → part1 = "original_url")
     ∧ on_line trim_lower domains line = domains).
Proof.
  unfold on_line. destruct (split_commas line) as [|p0 [|p1 [|p2 ps]]].
  1,2,4: right; split; [intros ?? [=]|done].
  case_bool_decide as Hh.
  - left. by exists p0, p1.
  - right. split; [|done]. intros ?? [= _ <-]. by destruct (decide (p1 = "original_url")).
Qed.

Lemma elem_of_foldl_on_line d domains lines :
  d ∈ foldl (on_line trim_lower) domains lines
  ↔ d ∈ domains
    ∨ ∃ line part0 part1, line ∈ lines ∧ split_commas line = [part0; part1]
        ∧ part1 ≠ "original_url" ∧ d = trim_lower part1.
Proof.
  revert domains. induction lines as [|line lines IH]; intros domains; simpl.
  { split; [by left|]. intros [?|(? & ? & ? & []%elem_of_nil & _)]. done. }
  rewrite IH. destruct (on_line_cases domains line)
    as [(p0 & p1 & Hs & Hh & ->)|[Hnone ->]].
  - rewrite elem_of_add. split.
    + intros [[->|?]|(l & q0 & q1 & Hl & ?)]; [|by left|].
      * right. exists line, p0, p1. split_and!; [by left|done..].
      * right. exists l, q0, q1. split_and!; [by right|tauto..].
    + intros [?|(l & q0 & q1 & [->|Hl]%elem_of_cons & Hq & Hne & ->)].
      * by left; right.
      * rewrite Hs in Hq. injection Hq as <- <-. by left; left.
      * right. exists l, q0, q1. done.
  - split.
    + intros [?|(l & q0 & q1 & Hl & ?)]; [by left|].
      right. exists l, q0, q1. split_and!; [by right|tauto..].
    + intros [?|(l & q0 & q1 & [->|Hl]%elem_of_cons & Hq & Hne & ->)]; [by left| |].
      * by apply Hnone in Hq.
      * right. exists l, q0, q1. done.
Qed.

Lemma NoDup_foldl_on_line domains lines :
  NoDup domains → NoDup (foldl (on_line trim_lower) domains lines).
Proof.
  revert domains. induction lines as [|line lines IH]; intros domains Hn; [done|].
  simpl. apply IH. destruct (on_line_cases domains line)
    as [(p0 & p1 & _ & _ & ->)|[_ ->]]; [by apply NoDup_add|done].
Qed.

Lemma length_foldl_on_line domains lines :
  length (foldl (on_line trim_lower) domains lines) ≤ length domains + length lines.
Proof.
  revert domains. induction lines as [|line lines IH]; intros domains; simpl; [lia|].
  etrans; [apply IH|]. destruct (on_line_cases domains line)
    as [(p0 & p1 & _ & _ & ->)|[_ ->]]; [|lia].
  unfold add. case_bool_decide; [lia|]. rewrite length_app. simpl. lia.
Qed.

(** Lines whose domains are all there already change nothing. *)
Lemma foldl_on_line_present domains lines :
  (∀ line part0 part1, line ∈ lines → split_commas line = [part0; part1] →
     part1 ≠ "original_url" → trim_lower part1 ∈ domains) →
  foldl (on_line trim_lower) domains lines = domains.
Proof.
  induction lines as [|line lines IH]; intros Hall; [done|]. simpl.
  destruct (on_line_cases domains line) as [(p0 & p1 & Hs & Hh & ->)|[_ ->]].
  - rewrite add_present by (eapply Hall; [by left|done..]).
    apply IH. intros l q0 q1 Hl. apply Hall. by right.
  - apply IH. intros l q0 q1 Hl. apply Hall. by right.
Qed.
End WithStrings.

End LoaderFacts.

(** ** The WHOIS cache *)

Module WhoisFacts.
Import Whois.

Lemma entry_of_here id v l : entry_of id ((id, v) :: l) = Some v.
Proof. unfold entry_of. simpl. by rewrite decide_True. Qed.

Lemma entry_of_elem id v l : entry_of id l = Some v → (id, v) ∈ l.
Proof.
  unfold entry_of. intros Hf. apply fmap_Some in Hf as ([i [id' v']] & Hfind & ->).
  apply list_find_Some in Hfind as (Hl & Hid & _). simpl in *. subst.
  by eapply list_elem_of_lookup_2.
Qed.

(** A hit: the cached text, no query, nothing stored. *)
Lemma getCachedWhoisData_hit whoisCache domain cached o :
  whoisCache !! domain = Some cached →
  getCachedWhoisData whoisCache domain o = (cached, whoisCache, []).
Proof. intros H. unfold getCachedWhoisData. by rewrite H. Qed.

(** A miss: one query, and its outcome is both returned and stored. *)
Lemma getCachedWhoisData_miss whoisCache domain o :
  whoisCache !! domain = None →
  getCachedWhoisData whoisCache domain o
  = (record_of o, <[domain := record_of o]> whoisCache, [domain]).
Proof. intros H. unfold getCachedWhoisData. by rewrite H. Qed.

(** Whatever happened, the domain is cached afterwards, with the text that
    was returned. *)
Lemma getCachedWhoisData_stores whoisCache domain o :
  (getCachedWhoisData whoisCache domain o).1.2 !! domain
  = Some (getCachedWhoisData whoisCache domain o).1.1.
Proof.
  unfold getCachedWhoisData. destruct (whoisCache !! domain) eqn:H; simpl.
  - done.
  - by rewrite lookup_insert_eq.
Qed.

Lemma getCachedWhoisData_other whoisCache domain o other :
  other ≠ domain →
  (getCachedWhoisData whoisCache domain o).1.2 !! other = whoisCache !! other.
Proof.
  intros. unfold getCachedWhoisData. destruct (whoisCache !! domain); simpl.
  - done.
  - by rewrite lookup_insert_ne.
Qed.

(** *** Calls on a cached domain *)

Lemma call_cached w domain throws cached :
  cache w !! domain = Some cached →
  call w domain throws
  = World (cache w) (in_flight w) ((calls w, cached) :: resolved w)
          (S (calls w)) (queries w).
Proof. intros H. unfold call. by rewrite H. Qed.

Lemma call_cached_result w domain throws cached :
  cache w !! domain = Some cached →
  result_of (call w domain throws) (calls w) = Some cached
  ∧ queries (call w domain throws) = queries w
  ∧ cache (call w domain throws) = cache w
  ∧ in_flight (call w domain throws) = in_flight w.
Proof.
  intros H. rewrite (call_cached _ _ _ _ H). unfold result_of. simpl.
  by rewrite entry_of_here.
Qed.

(** *** Calls on a domain that is not cached *)

Lemma call_uncached w domain :
  cache w !! domain = None →
  open_queries (call w domain false) domain = S (open_queries w domain)
  ∧ queries (call w domain false) = domain :: queries w
  ∧ cache (call w domain false) = cache w.
Proof.
  intros H. unfold call, open_queries. rewrite H. simpl.
  by rewrite filter_cons_True.
Qed.

Lemma call_throws w domain :
  cache w !! domain = None →
  result_of (call w domain true) (calls w) = Some "WHOIS data unavailable."
  ∧ cache (call w domain true) !! domain = Some "WHOIS data unavailable."
  ∧ queries (call w domain true) = domain :: queries w.
Proof.
  intros H. unfold call, result_of. rewrite H. simpl.
  by rewrite entry_of_here, lookup_insert_eq.
Qed.

(** *** Callbacks *)

Lemma callback_result w id err data w' :
  callback w id err data = Some w' →
  ∃ domain,
    (id, domain) ∈ in_flight w
    ∧ result_of w' id = Some (if err then "WHOIS lookup failed." else or_no_data data)
    ∧ cache w' = <[domain := if err then "WHOIS lookup failed." else or_no_data data]> (cache w)
    ∧ in_flight w' = drop_flight id (in_flight w)
    ∧ queries w' = queries w
    ∧ calls w' = calls w.
Proof.
  unfold callback. destruct (entry_of id (in_flight w)) as [domain|] eqn:He; [|done].
  simpl. intros [= <-]. exists domain. unfold result_of. simpl.
  rewrite entry_of_here. split_and!; try done. by apply entry_of_elem.
Qed.

Lemma drop_flight_open id domain fl :
  length (filter (λ q, q.2 = domain) (drop_flight id fl))
  ≤ length (filter (λ q : nat * string, q.2 = domain) fl).
Proof.
  unfold drop_flight. induction fl as [|q fl IH]; [done|].
  rewrite (filter_cons (λ q, q.1 ≠ id)).
  destruct (decide (q.1 ≠ id)).
  - rewrite !(filter_cons (λ q, q.2 = domain)). case_decide; simpl; lia.
  - rewrite (filter_cons (λ q, q.2 = domain)). case_decide; simpl; lia.
Qed.

Lemma open_queries_0 w id domain :
  open_queries w domain = 0 → (id, domain) ∉ in_flight w.
Proof.
  unfold open_queries. intros Hlen Hin.
  assert ((id, domain) ∈ filter (λ q, q.2 = domain) (in_flight w)) as Hf.
  { by apply list_elem_of_filter. }
  destruct (filter _ _); [by apply elem_of_nil in Hf|done].
Qed.

(** *** A cached domain with no open query stays as it is *)

Lemma settled_step w e w' domain cached :
  settled w domain cached → step w e = Some w' → settled w' domain cached.
Proof.
  intros [Hc Ho]. destruct e as [d throws|id err data]; simpl.
  - intros [= <-]. unfold call. destruct (cache w !! d) eqn:Hd; [done|].
    assert (d ≠ domain) by congruence.
    destruct throws; split; simpl.
    + by rewrite lookup_insert_ne.
    + done.
    + done.
    + unfold open_queries. simpl. by rewrite filter_cons_False.
  - intros (d & Hin & _ & Hcache & Hfl & _)%callback_result.
    assert (d ≠ domain).
    { intros ->. by eapply open_queries_0. }
    split.
    + by rewrite Hcache, lookup_insert_ne.
    + unfold open_queries in *. rewrite Hfl.
      pose proof (drop_flight_open id domain (in_flight w)). lia.
Qed.

Lemma settled_run w es w' domain cached :
  settled w domain cached → run w es = Some w' → settled w' domain cached.
Proof.
  revert w. induction es as [|e es IH]; intros w Hs; simpl.
  { by intros [= <-]. }
  destruct (step w e) as [w1|] eqn:He; [|done]. simpl.
  apply IH. by eapply settled_step.
Qed.

(** *** A lookup with unrelated events between its call and its callback *)

Lemma entry_of_cons_ne id id' v l :
  id' ≠ id → entry_of id ((id', v) :: l) = entry_of id l.
Proof.
  intros Hne. unfold entry_of. simpl. rewrite decide_False by done.
  by destruct (list_find _ l) as [[i r]|].
Qed.

Lemma entry_of_drop_ne id id' l :
  id' ≠ id → entry_of id (drop_flight id' l) = entry_of id l.
Proof.
  intros Hne. unfold drop_flight. induction l as [|[i v] l IH]; [done|].
  rewrite filter_cons. simpl. destruct (decide (i ≠ id')) as [Hi|Hi].
  - destruct (decide (i = id)) as [->|Hid].
    + by rewrite !entry_of_here.
    + by rewrite !entry_of_cons_ne.
  - assert (i ≠ id) by (intros ->; apply Hi; congruence).
    by rewrite entry_of_cons_ne.
Qed.

Lemma run_app w es1 es2 :
  run w (es1 ++ es2) = w' ← run w es1; run w' es2.
Proof.
  revert w. induction es1 as [|e es1 IH]; intros w; simpl; [done|].
  destruct (step w e); simpl; [apply IH|done].
Qed.

Lemma alone_start w domain :
  cache w !! domain = None → open_queries w domain = 0 →
  alone_in_flight (call w domain false) domain (calls w).
Proof.
  intros Hc Ho. unfold alone_in_flight, call. rewrite Hc. simpl.
  rewrite entry_of_here. split_and!; [done|lia|done|].
  intros q [->|Hq]%elem_of_cons Hd; [done|].
  destruct q as [i d]. simpl in Hd. subst d.
  by apply (open_queries_0 w i domain) in Ho.
Qed.

Lemma alone_step w e w' domain id :
  alone_in_flight w domain id → unrelated domain id e → step w e = Some w' →
  alone_in_flight w' domain id.
Proof.
  intros (Hc & Hid & He & Honly). destruct e as [d throws|i err data]; simpl.
  - intros Hd [= <-]. unfold alone_in_flight, call.
    destruct (cache w !! d) eqn:Hcd; simpl.
    { split_and!; [done|lia|done..]. }
    destruct throws; simpl.
    + rewrite lookup_insert_ne by done. split_and!; [done|lia|done..].
    + rewrite entry_of_cons_ne by lia. split_and!; [done|lia|done|].
      intros q [->|Hq]%elem_of_cons Hq2; [done|]. by apply Honly.
  - intros Hi (d & Hin & _ & Hcache & Hfl & _ & Hcalls)%callback_result.
    assert (d ≠ domain) as Hd.
    { intros ->. apply Hi. by apply (Honly (i, domain)). }
    unfold alone_in_flight. rewrite Hcache, Hfl, Hcalls, lookup_insert_ne by done.
    rewrite entry_of_drop_ne by done.
    split_and!; [done..|].
    intros q Hq. apply Honly. unfold drop_flight in Hq.
    by apply list_elem_of_filter in Hq as [_ ?].
Qed.

Lemma alone_run w es w' domain id :
  alone_in_flight w domain id → Forall (unrelated domain id) es →
  run w es = Some w' → alone_in_flight w' domain id.
Proof.
  revert w. induction es as [|e es IH]; intros w Ha Hun; simpl.
  { by intros [= <-]. }
  apply Forall_cons in Hun as [He Hes].
  destruct (step w e) as [w1|] eqn:Hstep; [|done]. simpl.
  apply IH; [|done]. by eapply alone_step.
Qed.

(** The callback of a query that is alone in flight leaves the domain
    settled on its outcome. *)
Lemma alone_callback w domain id err data :
  alone_in_flight w domain id →
  ∃ w1, callback w id err data = Some w1
        ∧ settled w1 domain (if err then "WHOIS lookup failed." else or_no_data data)
        ∧ result_of w1 id
          = Some (if err then "WHOIS lookup failed." else or_no_data data).
Proof.
  intros (Hc & Hid & He & Honly). unfold callback. rewrite He. simpl.
  eexists. split; [done|]. unfold settled, result_of, open_queries. simpl.
  rewrite lookup_insert_eq, entry_of_here. split_and!; [done| |done].
  destruct (filter _ (drop_flight id (in_flight w))) as [|q fl] eqn:Hf; [done|].
  assert (q ∈ filter (λ q, q.2 = domain) (drop_flight id (in_flight w))) as Hq.
  { rewrite Hf. by left. }
  apply list_elem_of_filter in Hq as [Hq2 Hq].
  unfold drop_flight in Hq. apply list_elem_of_filter in Hq as [Hne Hq].
  by apply Honly in Hq.
Qed.

(** A lookup during which no other call for the domain arrives leaves the
    domain settled on its outcome. *)
Lemma lookup_settles w domain o between :
  cache w !! domain = None → open_queries w domain = 0 →
  Forall (unrelated domain (calls w)) between →
  is_Some (run (call w domain false) between) →
  ∃ w1, run w (lookup_trace (calls w) domain o between) = Some w1
        ∧ settled w1 domain (record_of o)
        ∧ result_of w1 (calls w) = Some (record_of o).
Proof.
  intros Hc Ho Hun [u Hu].
  pose proof (alone_run _ _ _ _ _ (alone_start w domain Hc Ho) Hun Hu) as Ha.
  destruct o as [| |data]; simpl.
  - destruct (call_throws w domain Hc) as (Hr & Hcache & Hq).
    eexists. split; [done|]. split; [|done].
    split; [done|]. unfold call, open_queries. rewrite Hc. done.
  - rewrite run_app, Hu. simpl.
    destruct (alone_callback u domain (calls w) true None Ha) as (w1 & -> & ? & ?).
    by exists w1.
  - rewrite run_app, Hu. simpl.
    destruct (alone_callback u domain (calls w) false data Ha) as (w1 & -> & ? & ?).
    by exists w1.
Qed.

(** [n] calls for an uncached domain before any callback: [n] queries. *)
Lemma overlapping_calls w domain n :
  cache w !! domain = None →
  ∃ w', run w (replicate n (Call domain false)) = Some w'
        ∧ open_queries w' domain = open_queries w domain + n
        ∧ queries w' = replicate n domain ++ queries w
        ∧ cache w' = cache w.
Proof.
  revert w. induction n as [|n IH]; intros w Hc; simpl.
  { exists w. split_and!; (done || lia). }
  destruct (call_uncached w domain Hc) as (Ho & Hq & Hcache).
  destruct (IH (call w domain false)) as (w' & Hrun & Ho' & Hq' & Hcache').
  { by rewrite Hcache. }
  exists w'. split_and!.
  - done.
  - lia.
  - rewrite Hq', Hq, app_comm_cons, replicate_cons_app, <- app_assoc. done.
  - congruence.
Qed.

(** *** What holds in every world reached from the start *)

Lemma or_no_data_nonempty data : or_no_data data ≠ "".
Proof. unfold or_no_data. destruct data as [d|]; [|done]. by case_decide. Qed.

Lemma getWhoisData_nonempty domain o : getWhoisData domain o ≠ "".
Proof. destruct o; [done..|apply or_no_data_nonempty]. Qed.

Lemma callback_text_nonempty (err : bool) data :
  (if err then "WHOIS lookup failed." else or_no_data data) ≠ "".
Proof. destruct err; [done|apply or_no_data_nonempty]. Qed.

Lemma reachable_start : reachable_inv start.
Proof.
  split; simpl; try done.
  - intros ?? []%elem_of_nil.
  - intros ? [? ?]. done.
  - intros ?? []%elem_of_nil.
Qed.

Lemma callback_resolved w id err data w' :
  callback w id err data = Some w' →
  resolved w'
  = (id, if err then "WHOIS lookup failed." else or_no_data data) :: resolved w.
Proof.
  unfold callback. destruct (entry_of id (in_flight w)); [|done].
  by intros [= <-].
Qed.

Lemma reachable_step w e w' :
  reachable_inv w → step w e = Some w' → reachable_inv w'.
Proof.
  intros [Hct Hrt Hcq Hfq Hqc].
  destruct e as [d throws|id err data]; simpl.
  - intros [= <-]. unfold call. destruct (cache w !! d) as [t|] eqn:Hd.
    + split; simpl; try done.
      * intros id' t' [[= -> ->]|?]%elem_of_cons; eauto.
      * lia.
    + destruct throws; split; simpl.
      * intros d' t'. rewrite lookup_insert. case_decide; [by intros [= <-]|eauto].
      * intros id' t' [[= -> ->]|?]%elem_of_cons; eauto.
      * intros d'. rewrite lookup_insert. case_decide as Hdd.
        -- subst. intros _. by left.
        -- intros ?%Hcq. by right.
      * intros id' d' ?%Hfq. by right.
      * lia.
      * done.
      * done.
      * intros d' ?%Hcq. by right.
      * intros id' d' [[= -> ->]|?%Hfq]%elem_of_cons; [by left|by right].
      * lia.
  - intros Hcb. pose proof (callback_resolved _ _ _ _ _ Hcb) as Hres.
    apply callback_result in Hcb as (d & Hin & _ & Hcache & Hfl & Hq & Hcalls).
    split.
    + intros d' t'. rewrite Hcache, lookup_insert.
      case_decide; [intros [= <-]; apply callback_text_nonempty|eauto].
    + intros id' t'. rewrite Hres.
      intros [[= -> ->]|?]%elem_of_cons; [apply callback_text_nonempty|eauto].
    + intros d'. rewrite Hcache, Hq, lookup_insert. case_decide as Hdd; [|eauto].
      subst. intros _. eauto.
    + intros id' d'. rewrite Hfl, Hq. unfold drop_flight.
      intros [_ ?]%list_elem_of_filter. eauto.
    + rewrite Hq, Hcalls. done.
Qed.

Lemma reachable_run w es w' :
  reachable_inv w → run w es = Some w' → reachable_inv w'.
Proof.
  revert w. induction es as [|e es IH]; intros w Hw; simpl.
  { by intros [= <-]. }
  destruct (step w e) as [w1|] eqn:He; [|done]. simpl.
  apply IH. by eapply reachable_step.
Qed.

Lemma cache_kept_step w e w' d t :
  cache w !! d = Some t → step w e = Some w' → is_Some (cache w' !! d).
Proof.
  intros Hd. destruct e as [d' throws|id err data]; simpl.
  - intros [= <-]. unfold call. destruct (cache w !! d') eqn:Hd'; simpl; [by eauto|].
    destruct throws; simpl; [|by eauto].
    rewrite lookup_insert. case_decide; eauto.
  - intros (d' & _ & _ & Hcache & _)%callback_result.
    rewrite Hcache, lookup_insert. case_decide; eauto.
Qed.

Lemma cache_kept_run w es w' d :
  is_Some (cache w !! d) → run w es = Some w' → is_Some (cache w' !! d).
Proof.
  revert w. induction es as [|e es IH]; intros w Hd; simpl.
  { by intros [= <-]. }
  destruct (step w e) as [w1|] eqn:He; [|done]. simpl.
  apply IH. destruct Hd as [t Ht]. by eapply cache_kept_step.
Qed.

(** A second call right after the first is a hit. *)
Lemma getCachedWhoisData_again whoisCache domain o o' :
  getCachedWhoisData (getCachedWhoisData whoisCache domain o).1.2 domain o'
  = ((getCachedWhoisData whoisCache domain o).1.1,
     (getCachedWhoisData whoisCache domain o).1.2, []).
Proof.
  apply getCachedWhoisData_hit, getCachedWhoisData_stores.
Qed.

End WhoisFacts.

(** ** The handlers *)

Module HandlerFacts.
Import Js Levenshtein Spec Normalizer Whois Handler LevenshteinFacts.

Lemma gt_spec x y : gt x y = true ↔ (y < x)%Q.
Proof.
  unfold gt. rewrite negb_true_iff, <- not_true_iff_false, Qle_bool_iff.
  split; [apply Qnot_le_lt|apply Qlt_not_le].
Qed.

Lemma gt_false x y : gt x y = false ↔ (x <= y)%Q.
Proof. unfold gt. by rewrite negb_false_iff, Qle_bool_iff. Qed.


Section Scan.
Variable score : string → option Q.

Lemma scan_snoc l r : scan score (l ++ [r]) = scan_step score (scan score l) r.
Proof. unfold scan. by rewrite foldl_snoc. Qed.

(** Either nothing has scored above zero and the variables are untouched,
    or they hold a stored domain together with its score. *)
Lemma scan_inv l :
  (bestMatchDomain (scan score l) = None
   ∧ highestSimilarity (scan score l) = 0%Q
   ∧ ∀ r s, r ∈ l → score r = Some s → (s <= 0)%Q)
  ∨ (∃ d, bestMatchDomain (scan score l) = Some d ∧ d ∈ l
        ∧ score d = Some (highestSimilarity (scan score l))
        ∧ (0 < highestSimilarity (scan score l))%Q).
Proof.
  induction l as [|r l IH] using rev_ind.
  { left. repeat split; [done..|]. intros r s Hr. by apply elem_of_nil in Hr. }
  rewrite scan_snoc. unfold scan_step.
  destruct (score r) as [s|] eqn:Hs.
  - destruct (gt s (highestSimilarity (scan score l))) eqn:Hgt.
    + right. exists r. simpl. split_and!; [done|apply elem_of_app; right; by left|done|].
      apply gt_spec in Hgt.
      destruct IH as [(_ & Hh & _)|(d & _ & _ & _ & Hpos)].
      * by rewrite Hh in Hgt.
      * by eapply Qlt_trans.
    + apply gt_false in Hgt.
      destruct IH as [(Hb & Hh & Hall)|(d & Hb & Hd & Hsc & Hpos)].
      * left. split_and!; [done..|]. intros r' s' [Hr'| ->%list_elem_of_singleton]%elem_of_app Hs'.
        -- eauto.
        -- rewrite Hs in Hs'. injection Hs' as <-. by rewrite Hh in Hgt.
      * right. exists d. split_and!; [done|apply elem_of_app; by left|done..].
  - destruct IH as [(Hb & Hh & Hall)|(d & Hb & Hd & Hsc & Hpos)].
    + left. split_and!; [done..|]. intros r' s' [Hr'| ->%list_elem_of_singleton]%elem_of_app Hs'.
      * eauto.
      * congruence.
    + right. exists d. split_and!; [done|apply elem_of_app; by left|done..].
Qed.

(** Every stored domain is scored: none scores above the result. *)
Lemma scan_upper l r s :
  r ∈ l → score r = Some s → (s <= highestSimilarity (scan score l))%Q.
Proof.
  induction l as [|r' l IH] using rev_ind.
  { intros Hr. by apply elem_of_nil in Hr. }
  rewrite scan_snoc. unfold scan_step.
  intros [Hr| ->%list_elem_of_singleton]%elem_of_app Hs.
  - specialize (IH Hr Hs). destruct (score r') as [s'|]; [|done].
    destruct (gt s' _) eqn:Hgt; [|done]. apply gt_spec in Hgt. simpl.
    eapply Qle_trans; [done|]. by apply Qlt_le_weak.
  - rewrite Hs. destruct (gt s _) eqn:Hgt; simpl; [apply Qle_refl|].
    by apply gt_false in Hgt.
Qed.

Lemma scan_no_match l :
  bestMatchDomain (scan score l) = None
  ↔ ∀ r s, r ∈ l → score r = Some s → (s <= 0)%Q.
Proof.
  destruct (scan_inv l) as [(Hb & Hh & Hall)|(d & Hb & Hd & Hsc & Hpos)].
  - done.
  - split; [congruence|]. intros Hall. specialize (Hall _ _ Hd Hsc).
    by apply Qlt_not_le in Hpos.
Qed.

Lemma scan_no_match_zero l :
  bestMatchDomain (scan score l) = None → highestSimilarity (scan score l) = 0%Q.
Proof.
  destruct (scan_inv l) as [(Hb & Hh & Hall)|(d & Hb & Hd & Hsc & Hpos)];
    [done|congruence].
Qed.
End Scan.

Lemma parse_inr URL_hostname f url domain :
  parse URL_hostname f = inr (url, domain)
  ↔ f = Text url ∧ url ≠ "" ∧ extractMainDomain URL_hostname url = Some domain
    ∧ domain ≠ "".
Proof.
  unfold parse. destruct f as [|s|[|]]; simpl; try (split; [done|by intros (?&?)]).
  case_bool_decide as Hs.
  { split; [done|]. intros ([= ->] & ? & _). done. }
  destruct (extractMainDomain URL_hostname s) as [d|] eqn:Hd.
  2:{ split; [done|]. intros ([= ->] & _ & ? & _). congruence. }
  case_bool_decide as Hd'.
  { split; [done|]. intros ([= ->] & _ & ? & ?). congruence. }
  split.
  - intros [= -> ->]. done.
  - intros ([= ->] & _ & ? & _). congruence.
Qed.

Lemma extractMainDomain_Some URL_hostname url domain :
  extractMainDomain URL_hostname url = Some domain
  ↔ ∃ hostname, URL_hostname (with_scheme url) = Some hostname
                ∧ domain = strip_www hostname.
Proof.
  unfold extractMainDomain. destruct (URL_hostname (with_scheme url)) as [h|].
  - split; [intros [= <-]; eauto|]. by intros (h' & [= <-] & ->).
  - split; [done|]. by intros (h' & ? & _).
Qed.

Section Backend.
Variable URL_hostname : string → option string.
Variable compareTwoStrings : string → string → Q.
Variable storedDomains : list string.

Lemma backend_verified whoisCache o f url domain :
  parse URL_hostname f = inr (url, domain) →
  domain ∈ storedDomains →
  Backend.check_clone URL_hostname compareTwoStrings storedDomains whoisCache o f
  = Backend.Reply (Json (verified url domain)) init whoisCache [] [].
Proof.
  intros Hp Hin. unfold Backend.check_clone. rewrite Hp.
  by rewrite bool_decide_eq_true_2.
Qed.

Lemma backend_scored_high whoisCache o f url domain :
  parse URL_hostname f = inr (url, domain) →
  domain ∉ storedDomains →
  let st := scan (Backend.similarity compareTwoStrings domain) storedDomains in
  (80 < highestSimilarity st)%Q →
  Backend.check_clone URL_hostname compareTwoStrings storedDomains whoisCache o f
  = Backend.Reply
      (Json (Verdict url domain (bestMatchDomain st)
               (toFixed2 (highestSimilarity st) +:+ "%") true
               (getCachedWhoisData whoisCache domain o).1.1))
      st (getCachedWhoisData whoisCache domain o).1.2 [domain]
      (getCachedWhoisData whoisCache domain o).2.
Proof.
  intros Hp Hin st Hgt. unfold Backend.check_clone. rewrite Hp.
  rewrite bool_decide_eq_false_2 by done. fold st.
  apply gt_spec in Hgt. rewrite Hgt.
  by destruct (getCachedWhoisData whoisCache domain o) as [[? ?] ?].
Qed.

Lemma backend_scored_low whoisCache o f url domain :
  parse URL_hostname f = inr (url, domain) →
  domain ∉ storedDomains →
  let st := scan (Backend.similarity compareTwoStrings domain) storedDomains in
  (highestSimilarity st <= 80)%Q →
  Backend.check_clone URL_hostname compareTwoStrings storedDomains whoisCache o f
  = Backend.Reply
      (Json (Verdict url domain (bestMatchDomain st)
               (toFixed2 (highestSimilarity st) +:+ "%") false
               "WHOIS lookup skipped due to low similarity."))
      st whoisCache [] [].
Proof.
  intros Hp Hin st Hle. unfold Backend.check_clone. rewrite Hp.
  rewrite bool_decide_eq_false_2 by done. fold st.
  apply gt_false in Hle. by rewrite Hle.
Qed.
End Backend.

Section Part000.
Variable URL_hostname : string → option string.
Variable storedDomains : list string.

Lemma part000_verified o f url domain :
  parse URL_hostname f = inr (url, domain) →
  domain ∈ storedDomains →
  Part000.check_clone URL_hostname storedDomains o f
  = Part000.Reply (Json (verified url domain)) init [].
Proof.
  intros Hp Hin. unfold Part000.check_clone. rewrite Hp.
  by rewrite bool_decide_eq_true_2.
Qed.

Lemma part000_scored o f url domain :
  parse URL_hostname f = inr (url, domain) →
  domain ∉ storedDomains →
  let st := scan (levenshteinDistance domain) storedDomains in
  Part000.check_clone URL_hostname storedDomains o f
  = Part000.Reply
      (Json (Verdict url domain (bestMatchDomain st)
               (toFixed2 (highestSimilarity st) +:+ "%")
               (gt (highestSimilarity st) 80)
               (getWhoisData domain o)))
      st [domain].
Proof.
  intros Hp Hin st. unfold Part000.check_clone. rewrite Hp.
  by rewrite bool_decide_eq_false_2.
Qed.
End Part000.

(** *** [extractMainDomain] *)

Lemma startsWith_app s p : startsWith s p = true ↔ ∃ r, s = p +:+ r.
Proof.
  unfold startsWith. revert s.
  induction p as [|c p IH]; intros [|c' s]; simpl.
  - split; [intros _; by exists ""|done].
  - split; [intros _; by eexists|done].
  - split; [done|]. by intros [r ?].
  - destruct (Ascii.ascii_dec c c') as [->|Hc].
    + rewrite IH. split; intros [r Hr]; exists r; [by rewrite Hr|].
      change (String c' p +:+ r) with (String c' (p +:+ r)) in Hr.
      by injection Hr.
    + split; [done|]. intros [r Hr].
      change (String c p +:+ r) with (String c (p +:+ r)) in Hr.
      injection Hr as ? ?. congruence.
Qed.

Lemma strip_www_cases hostname :
  (startsWith hostname "www." = true ∧ hostname = "www." +:+ strip_www hostname)
  ∨ (startsWith hostname "www." = false ∧ hostname = strip_www hostname).
Proof.
  unfold strip_www. destruct (startsWith hostname "www.") eqn:Hw; [left|by right].
  split; [done|]. apply startsWith_app in Hw as [r ->]. done.
Qed.

Lemma startsWith_www_www hostname :
  startsWith (strip_www hostname) "www." = true
  ↔ startsWith hostname "www.www." = true.
Proof.
  destruct (strip_www_cases hostname) as [[Hw Heq]|[Hw Heq]].
  - rewrite Heq at 2. done.
  - rewrite <- Heq, Hw. split; [done|].
    intros [r Hr]%startsWith_app.
    assert (startsWith hostname "www." = true) as Hw'; [|congruence].
    apply startsWith_app. exists ("www." +:+ r). by rewrite Hr.
Qed.

(** *** part_000 scores every stored domain *)

(** Each stored domain is scored with the formula, the empty one apart,
    and the loop keeps the largest score. *)
Lemma part000_scores_every_member suspect storedDomains r :
  suspect ≠ "" → r ∈ storedDomains → r ≠ "" →
  levenshteinDistance suspect r = Some (similarity suspect r)
  ∧ (similarity suspect r
     <= highestSimilarity (scan (levenshteinDistance suspect) storedDomains))%Q.
Proof.
  intros Hs Hr Hne.
  pose proof (levenshteinDistance_formula suspect r Hs Hne) as Hf.
  split; [done|]. by eapply scan_upper.
Qed.

(** *** The ways out of the handlers *)

Lemma parse_inl URL_hostname f r :
  parse URL_hostname f = inl r →
  (falsy f = true ∧ r = Rejected 400 "❌ URL is required.")
  ∨ (falsy f = false ∧ r = Rejected 400 "❌ Invalid URL format.").
Proof.
  unfold parse. destruct (falsy f); [intros [= <-]; by left|].
  destruct f as [|url|t]; try (intros [= <-]; by right).
  destruct (extractMainDomain URL_hostname url); [|intros [= <-]; by right].
  case_bool_decide; [intros [= <-]; by right|done].
Qed.

Section FirstMaximum.
Variable score : string → option Q.

(** The loop keeps the first stored domain that reaches the largest
    score. *)
Lemma scan_first_maximum l :
  (bestMatchDomain (scan score l) = None
   ∧ highestSimilarity (scan score l) = 0%Q
   ∧ ∀ r s, r ∈ l → score r = Some s → (s <= 0)%Q)
  ∨ (∃ l1 d l2,
       l = l1 ++ d :: l2
       ∧ bestMatchDomain (scan score l) = Some d
       ∧ score d = Some (highestSimilarity (scan score l))
       ∧ (0 < highestSimilarity (scan score l))%Q
       ∧ (∀ r s, r ∈ l1 → score r = Some s → (s < highestSimilarity (scan score l))%Q)
       ∧ (∀ r s, r ∈ l2 → score r = Some s → (s <= highestSimilarity (scan score l))%Q)).
Proof.
  induction l as [|r l IH] using rev_ind.
  { left. split_and!; [done..|]. intros ?? []%elem_of_nil. }
  rewrite scan_snoc. unfold scan_step.
  destruct (score r) as [s|] eqn:Hs.
  - destruct (gt s (highestSimilarity (scan score l))) eqn:Hgt.
    + apply gt_spec in Hgt. right. exists l, r, []. simpl.
      destruct IH as [(_ & Hh & Hall)|(l1 & d & l2 & -> & _ & Hd & Hpos & H1 & H2)].
      * rewrite Hh in Hgt. split_and!; [done..| |intros ?? []%elem_of_nil].
        intros r' s' Hr' Hs'. eapply Qle_lt_trans; [by eapply Hall|done].
      * split_and!; [done..|by eapply Qlt_trans| |intros ?? []%elem_of_nil].
        intros r' s' [Hr'|[->|Hr']%elem_of_cons]%elem_of_app Hs'.
        -- eapply Qlt_trans; [by eapply H1|done].
        -- rewrite Hd in Hs'. injection Hs' as <-. done.
        -- eapply Qle_lt_trans; [by eapply H2|done].
    + apply gt_false in Hgt.
      destruct IH as [(Hb & Hh & Hall)|(l1 & d & l2 & -> & Hb & Hd & Hpos & H1 & H2)].
      * left. split_and!; [done..|].
        intros r' s' [Hr'| ->%list_elem_of_singleton]%elem_of_app Hs'; [eauto|].
        rewrite Hs in Hs'. injection Hs' as <-. by rewrite Hh in Hgt.
      * right. exists l1, d, (l2 ++ [r]). rewrite <- app_assoc. simpl.
        split_and!; [done..|].
        intros r' s' [Hr'| ->%list_elem_of_singleton]%elem_of_app Hs'; [eauto|].
        rewrite Hs in Hs'. by injection Hs' as <-.
  - destruct IH as [(Hb & Hh & Hall)|(l1 & d & l2 & -> & Hb & Hd & Hpos & H1 & H2)].
    + left. split_and!; [done..|].
      intros r' s' [Hr'| ->%list_elem_of_singleton]%elem_of_app Hs'; [eauto|congruence].
    + right. exists l1, d, (l2 ++ [r]). rewrite <- app_assoc. simpl.
      split_and!; [done..|].
      intros r' s' [Hr'| ->%list_elem_of_singleton]%elem_of_app Hs'; [eauto|congruence].
Qed.

Lemma scan_above l x :
  (0 <= x)%Q → (x < highestSimilarity (scan score l))%Q →
  ∃ d, bestMatchDomain (scan score l) = Some d ∧ d ∈ l.
Proof.
  intros Hx Hlt.
  destruct (scan_inv score l) as [(_ & Hh & _)|(d & Hb & Hd & _)]; [|by eauto].
  rewrite Hh in Hlt. by apply Qlt_not_le in Hlt.
Qed.


(** It is above a bound exactly when the score of some stored domain is. *)
Lemma scan_above_iff l x :
  (0 <= x)%Q →
  (x < highestSimilarity (scan score l))%Q
  ↔ ∃ r s, r ∈ l ∧ score r = Some s ∧ (x < s)%Q.
Proof.
  intros Hx. split.
  - intros Hlt. destruct (scan_inv score l) as [(_ & Hh & _)|(d & _ & Hd & Hs & _)].
    + rewrite Hh in Hlt. by apply Qlt_not_le in Hlt.
    + by exists d, (highestSimilarity (scan score l)).
  - intros (r & s & Hr & Hs & Hlt). eapply Qlt_le_trans; [exact Hlt|].
    by eapply scan_upper.
Qed.
End FirstMaximum.

Section BackendCases.
Variable URL_hostname : string → option string.
Variable compareTwoStrings : string → string → Q.
Variable storedDomains : list string.

(** The reply of server.js in each of its four ways out. *)
Lemma backend_cases whoisCache o f :
  let r := Backend.check_clone URL_hostname compareTwoStrings storedDomains whoisCache o f in
  (∃ e, parse URL_hostname f = inl (Rejected 400 e)
        ∧ r = Backend.Reply (Rejected 400 e) init whoisCache [] [])
  ∨ (∃ url d, parse URL_hostname f = inr (url, d) ∧ d ∈ storedDomains
        ∧ r = Backend.Reply (Json (verified url d)) init whoisCache [] [])
  ∨ (∃ url d, parse URL_hostname f = inr (url, d) ∧ (d ∉ storedDomains)
        ∧ (let st := scan (Backend.similarity compareTwoStrings d) storedDomains in
           (highestSimilarity st <= 80)%Q
           ∧ r = Backend.Reply
                   (Json (Verdict url d (bestMatchDomain st)
                            (toFixed2 (highestSimilarity st) +:+ "%") false
                            "WHOIS lookup skipped due to low similarity."))
                   st whoisCache [] []))
  ∨ (∃ url d, parse URL_hostname f = inr (url, d) ∧ (d ∉ storedDomains)
        ∧ (let st := scan (Backend.similarity compareTwoStrings d) storedDomains in
           (80 < highestSimilarity st)%Q
           ∧ r = Backend.Reply
                   (Json (Verdict url d (bestMatchDomain st)
                            (toFixed2 (highestSimilarity st) +:+ "%") true
                            (getCachedWhoisData whoisCache d o).1.1))
                   st (getCachedWhoisData whoisCache d o).1.2 [d]
                   (getCachedWhoisData whoisCache d o).2)).
Proof.
  cbv zeta. destruct (parse URL_hostname f) as [r|[url d]] eqn:Hp.
  - left. destruct (parse_inl _ _ _ Hp) as [[_ ->]|[_ ->]];
      eexists; (split; [done|]); unfold Backend.check_clone; by rewrite Hp.
  - right. destruct (decide (d ∈ storedDomains)) as [Hin|Hin].
    { left. exists url, d. split_and!; [done..|]. by apply backend_verified. }
    right.
    destruct (Qlt_le_dec 80 (highestSimilarity
                (scan (Backend.similarity compareTwoStrings d) storedDomains))) as [Hb|Hb].
    + right. exists url, d. split_and!; [done..|]. by apply backend_scored_high.
    + left. exists url, d. split_and!; [done..|]. by apply backend_scored_low.
Qed.
End BackendCases.

Section Part000Cases.
Variable URL_hostname : string → option string.
Variable storedDomains : list string.

Lemma part000_cases o f :
  let r := Part000.check_clone URL_hostname storedDomains o f in
  (∃ e, parse URL_hostname f = inl (Rejected 400 e)
        ∧ r = Part000.Reply (Rejected 400 e) init [])
  ∨ (∃ url d, parse URL_hostname f = inr (url, d) ∧ d ∈ storedDomains
        ∧ r = Part000.Reply (Json (verified url d)) init [])
  ∨ (∃ url d, parse URL_hostname f = inr (url, d) ∧ (d ∉ storedDomains)
        ∧ (let st := scan (levenshteinDistance d) storedDomains in
           r = Part000.Reply
                 (Json (Verdict url d (bestMatchDomain st)
                          (toFixed2 (highestSimilarity st) +:+ "%")
                          (gt (highestSimilarity st) 80) (getWhoisData d o)))
                 st [d])).
Proof.
  cbv zeta. destruct (parse URL_hostname f) as [r|[url d]] eqn:Hp.
  - left. destruct (parse_inl _ _ _ Hp) as [[_ ->]|[_ ->]];
      eexists; (split; [done|]); unfold Part000.check_clone; by rewrite Hp.
  - right. destruct (decide (d ∈ storedDomains)) as [Hin|Hin].
    + left. exists url, d. split_and!; [done..|]. by apply part000_verified.
    + right. exists url, d. split_and!; [done..|]. by apply part000_scored.
Qed.
End Part000Cases.

Lemma with_scheme_prefixed inputUrl :
  startsWith (with_scheme inputUrl) "http://" = true
  ∨ startsWith (with_scheme inputUrl) "https://" = true.
Proof.
  unfold with_scheme.
  destruct (startsWith inputUrl "http://") eqn:H1; [by left|].
  destruct (startsWith inputUrl "https://") eqn:H2; [by right|].
  simpl. right. apply startsWith_app. by eexists.
Qed.

Lemma with_scheme_fixed inputUrl :
  startsWith inputUrl "http://" = true ∨ startsWith inputUrl "https://" = true →
  with_scheme inputUrl = inputUrl.
Proof. unfold with_scheme. by intros [-> | ->]; rewrite ?andb_false_r. Qed.

End HandlerFacts.

(** * The specification, claim by claim *)

Import Js Levenshtein Spec EditDistance LevenshteinFacts WhoisFacts HandlerFacts.
Import Normalizer Whois Handler.

(** Read the fields of a reply without touching the numbers in it. *)
Ltac read_reply :=
  cbn [Backend.sent Backend.vars Backend.lookups Backend.whois_queries
       Backend.cache_after Part000.sent Part000.vars Part000.lookups
       isClone whoisData verified highestSimilarity init].

(** C1.  With an empty string among the stored domains the score is not
    the formula: [levenshteinDistance] leaves through its second guard and
    returns the length of the suspect, 7 here, where the formula gives 0;
    the verdict names the empty string as best match at 7.00%. *)
Theorem empty_stored_domain_scores_suspect_length :
  levenshteinDistance "abc.com" "" = Some 7%Q
  ∧ (similarity "abc.com" "" == 0)%Q
  ∧ Part000.sent (Part000.check_clone Demo.hostname [""] Failed (Text "abc.com"))
    = Json (Verdict "abc.com" "abc.com" (Some "") "7.00%" false
              "WHOIS data unavailable due to server error.").
Proof. split_and!; reflexivity. Qed.

(** C2 (amended).  In server.js [getCachedWhoisData] is called exactly when
    the domain is not a stored one and some stored domain scores above 80
    against it.  The verdict then carries what the call resolves to;
    otherwise nothing is looked up, the cache is untouched and [whoisData]
    is one of the two fixed texts.  In part_000 there is no such gate:
    [getWhoisData] is called for every domain that is not stored, and the
    verdict carries what it resolves to. *)
Theorem whois_lookup_gate
    URL_hostname compareTwoStrings storedDomains whoisCache o f url domain :
  parse URL_hostname f = inr (url, domain) →
  let rb := Backend.check_clone URL_hostname compareTwoStrings storedDomains
              whoisCache o f in
  let rp := Part000.check_clone URL_hostname storedDomains o f in
  let above80 :=
    (domain ∉ storedDomains)
    ∧ ∃ r, r ∈ storedDomains ∧ (80 < compareTwoStrings domain r * 100)%Q in
  (Backend.lookups rb = [domain] ↔ above80)
  ∧ (above80 →
       ∃ v, Backend.sent rb = Json v
            ∧ whoisData v = (getCachedWhoisData whoisCache domain o).1.1
            ∧ Backend.cache_after rb = (getCachedWhoisData whoisCache domain o).1.2
            ∧ Backend.whois_queries rb = (getCachedWhoisData whoisCache domain o).2)
  ∧ (¬ above80 →
       Backend.lookups rb = [] ∧ Backend.whois_queries rb = []
       ∧ Backend.cache_after rb = whoisCache
       ∧ ∃ v, Backend.sent rb = Json v
              ∧ whoisData v
                = if bool_decide (domain ∈ storedDomains)
                  then "WHOIS lookup skipped for verified domains."
                  else "WHOIS lookup skipped due to low similarity.")
  ∧ Part000.lookups rp = (if bool_decide (domain ∈ storedDomains) then [] else [domain])
  ∧ (domain ∉ storedDomains →
       ∃ v, Part000.sent rp = Json v ∧ whoisData v = getWhoisData domain o).
Proof.
  intros Hp. cbv zeta.
  assert ((80 < highestSimilarity
                  (scan (Backend.similarity compareTwoStrings domain) storedDomains))%Q
          ↔ ∃ r, r ∈ storedDomains ∧ (80 < compareTwoStrings domain r * 100)%Q)
    as Habove.
  { rewrite scan_above_iff by (unfold Qle; simpl; lia).
    unfold Backend.similarity. split.
    - intros (r & s & Hr & [= <-] & Hlt). eauto.
    - intros (r & Hr & Hlt). eauto. }
  destruct (decide (domain ∈ storedDomains)) as [Hin|Hin].
  - rewrite (backend_verified _ _ _ _ _ _ _ _ Hp Hin),
      (part000_verified _ _ _ _ _ _ Hp Hin).
    rewrite bool_decide_eq_true_2 by done. read_reply. split_and!; try done.
    + split; [done|]. by intros [? _].
    + by intros [? _].
    + intros _. split_and!; try done. by eexists.
  - rewrite (part000_scored _ _ _ _ _ _ Hp Hin).
    rewrite bool_decide_eq_false_2 by done. cbv zeta.
    set (sb := scan (Backend.similarity compareTwoStrings domain) storedDomains) in *.
    destruct (Qlt_le_dec 80 (highestSimilarity sb)) as [Hb|Hb].
    + rewrite (backend_scored_high _ _ _ _ _ _ _ _ Hp Hin Hb). read_reply.
      split_and!; try done.
      * split; [|done]. intros _. split; [done|]. by apply Habove.
      * intros _. by eexists.
      * intros Hn. exfalso. apply Hn. split; [done|]. by apply Habove.
      * intros _. by eexists.
    + rewrite (backend_scored_low _ _ _ _ _ _ _ _ Hp Hin Hb). read_reply.
      split_and!; try done.
      * split; [done|]. intros [_ Hex%Habove]. by apply Qlt_not_le in Hex.
      * intros [_ Hex%Habove]. by apply Qlt_not_le in Hex.
      * intros _. split_and!; try done. by eexists.
      * intros _. by eexists.
Qed.

(** C3.  On an empty argument [levenshteinDistance] returns a length, not a
    percentage: 0 for two empty strings, 7 for the empty string against
    ["abc.com"], and 101 for a host name of 101 characters, which the
    handler then reports as a clone of the empty string at 101.00%. *)
Theorem empty_string_scores_are_lengths :
  levenshteinDistance "" "" = Some 0%Q
  ∧ levenshteinDistance "" "abc.com" = Some 7%Q
  ∧ levenshteinDistance "abc.com" "" = Some 7%Q
  ∧ levenshteinDistance Demo.long_host "" = Some 101%Q
  ∧ Part000.sent (Part000.check_clone Demo.hostname [""] Failed (Text Demo.long_host))
    = Json (Verdict Demo.long_host Demo.long_host (Some "") "101.00%" true
              "WHOIS data unavailable due to server error.").
Proof. split_and!; reflexivity. Qed.


(** C5 (amended).  For a stored domain that is not the empty string, and a
    URL whose extracted domain it is, both servers answer with the
    verified verdict (not a clone, "100%"), leave the two loop variables
    at their initial values and look nothing up. *)
Theorem verified_domain_fast_path
    URL_hostname compareTwoStrings storedDomains whoisCache o url domain :
  URL_hostname "https://" = None →
  domain ∈ storedDomains → domain ≠ "" →
  extractMainDomain URL_hostname url = Some domain →
  Backend.check_clone URL_hostname compareTwoStrings storedDomains whoisCache o (Text url)
  = Backend.Reply
      (Json (Verdict url domain (Some domain) "100%" false
               "WHOIS lookup skipped for verified domains."))
      init whoisCache [] []
  ∧ Part000.check_clone URL_hostname storedDomains o (Text url)
    = Part000.Reply
        (Json (Verdict url domain (Some domain) "100%" false
                 "WHOIS lookup skipped for verified domains."))
        init [].
Proof.
  intros Hempty Hin Hne Hd.
  assert (parse URL_hostname (Text url) = inr (url, domain)) as Hp.
  { apply parse_inr. split_and!; try done. intros ->.
    unfold extractMainDomain in Hd.
    change (with_scheme "") with "https://" in Hd. by rewrite Hempty in Hd. }
  by rewrite (backend_verified _ _ _ _ _ _ _ _ Hp Hin),
    (part000_verified _ _ _ _ _ _ Hp Hin).
Qed.

(** C6 (amended).  The extracted domain is the hostname the URL parser
    returns for the repaired input, minus one leading "www." when there is
    one; it still begins with "www." exactly when the hostname began with
    "www.www.". *)
Theorem extractMainDomain_strips_one_www URL_hostname url domain :
  extractMainDomain URL_hostname url = Some domain →
  ∃ hostname,
    URL_hostname (with_scheme url) = Some hostname
    ∧ ((startsWith hostname "www." = true ∧ hostname = "www." +:+ domain)
       ∨ (startsWith hostname "www." = false ∧ hostname = domain))
    ∧ (startsWith domain "www." = true ↔ startsWith hostname "www.www." = true).
Proof.
  intros (hostname & Hh & ->)%extractMainDomain_Some. exists hostname.
  split_and!; [done|apply strip_www_cases|apply startsWith_www_www].
Qed.

(** C7 (amended).  In server.js, take a lookup for a domain that is neither
    cached nor being queried, during which no other call for that domain
    arrives.  Its outcome, whichever it is, is turned into a text that is
    returned and stored under the domain; from then on, whatever calls and
    callbacks follow, a call for that domain returns the same text without
    a query. *)
Theorem cached_whois_record_is_kept w domain o between es w' throws :
  cache w !! domain = None → open_queries w domain = 0 →
  Forall (unrelated domain (calls w)) between →
  is_Some (run (call w domain false) between) →
  getCachedWhoisData (cache w) domain o
  = (record_of o, <[domain := record_of o]> (cache w), [domain])
  ∧ ∃ w1,
      run w (lookup_trace (calls w) domain o between) = Some w1
      ∧ result_of w1 (calls w) = Some (record_of o)
      ∧ cache w1 !! domain = Some (record_of o)
      ∧ (run w1 es = Some w' →
           result_of (call w' domain throws) (calls w') = Some (record_of o)
           ∧ queries (call w' domain throws) = queries w'
           ∧ getCachedWhoisData (cache w') domain o = (record_of o, cache w', [])).
Proof.
  intros Hc Ho Hun Hrun. split; [by apply getCachedWhoisData_miss|].
  destruct (lookup_settles w domain o between Hc Ho Hun Hrun) as (w1 & Hw1 & Hs & Hr).
  exists w1. split_and!; try done.
  { by destruct Hs. }
  intros Hes. destruct (settled_run _ _ _ _ _ Hs Hes) as [Hc' _].
  destruct (call_cached_result w' domain throws _ Hc') as (? & ? & _).
  split_and!; try done. by apply getCachedWhoisData_hit.
Qed.

(** C8 (amended).  There is no single flight: [n] calls for an uncached
    domain made before any callback open [n] queries, and each callback
    gives its own caller the outcome of its own query and overwrites the
    cache entry for the domain with it. *)
Theorem uncached_calls_each_query w domain n :
  cache w !! domain = None →
  ∃ w',
    run w (replicate n (Call domain false)) = Some w'
    ∧ open_queries w' domain = open_queries w domain + n
    ∧ queries w' = replicate n domain ++ queries w
    ∧ ∀ u id err data u',
        callback u id err data = Some u' →
        ∃ d, (id, d) ∈ in_flight u
             ∧ result_of u' id
               = Some (if err then "WHOIS lookup failed." else or_no_data data)
             ∧ cache u' !! d
               = Some (if err then "WHOIS lookup failed." else or_no_data data).
Proof.
  intros Hc. destruct (overlapping_calls w domain n Hc) as (w' & Hrun & Ho & Hq & _).
  exists w'. split_and!; try done.
  intros u id err data u' (d & Hin & Hr & Hcache & _)%callback_result.
  exists d. split_and!; try done. by rewrite Hcache, lookup_insert_eq.
Qed.

(** C9.  The score of [levenshteinDistance] does not depend on the order of
    its two arguments. *)
Theorem levenshteinDistance_symmetric a b :
  levenshteinDistance a b = levenshteinDistance b a.
Proof.
  destruct (decide (a = "")) as [->|Ha].
  { rewrite levenshteinDistance_empty_l, levenshteinDistance_empty_r. done. }
  destruct (decide (b = "")) as [->|Hb].
  { rewrite levenshteinDistance_empty_l, levenshteinDistance_empty_r. done. }
  rewrite !levenshteinDistance_formula by done. f_equal. apply similarity_sym.
Qed.

(** C10.  For a request whose domain is not stored, [best_match_domain] is
    [null] exactly when no stored domain scores above 0; the accuracy is
    then "0.00%", [isClone] is false and server.js looks nothing up.  A
    stored set that is not empty can give this: "ab" against "cd". *)
Theorem no_best_match_iff_no_positive_score
    URL_hostname compareTwoStrings storedDomains whoisCache o f url domain :
  parse URL_hostname f = inr (url, domain) → domain ∉ storedDomains →
  let rb := Backend.check_clone URL_hostname compareTwoStrings storedDomains
              whoisCache o f in
  let rp := Part000.check_clone URL_hostname storedDomains o f in
  (∃ vb vp,
    Backend.sent rb = Json vb ∧ Part000.sent rp = Json vp
    ∧ (best_match_domain vb = None
       ↔ ∀ r s, r ∈ storedDomains →
                Backend.similarity compareTwoStrings domain r = Some s → (s <= 0)%Q)
    ∧ (best_match_domain vb = None →
       matching_accuracy vb = "0.00%" ∧ isClone vb = false
       ∧ whoisData vb = "WHOIS lookup skipped due to low similarity."
       ∧ Backend.lookups rb = [] ∧ Backend.whois_queries rb = [])
    ∧ (best_match_domain vp = None
       ↔ ∀ r s, r ∈ storedDomains →
                levenshteinDistance domain r = Some s → (s <= 0)%Q)
    ∧ (best_match_domain vp = None →
       matching_accuracy vp = "0.00%" ∧ isClone vp = false))
  ∧ Part000.sent (Part000.check_clone Demo.hostname ["cd"] o (Text "ab"))
    = Json (Verdict "ab" "ab" None "0.00%" false (getWhoisData "ab" o)).
Proof.
  intros Hp Hin. cbv zeta. split; [|done].
  rewrite (part000_scored _ _ _ _ _ _ Hp Hin). cbv zeta.
  set (sb := scan (Backend.similarity compareTwoStrings domain) storedDomains).
  set (sp := scan (levenshteinDistance domain) storedDomains).
  assert (bestMatchDomain sp = None →
          toFixed2 (highestSimilarity sp) +:+ "%" = "0.00%"
          ∧ gt (highestSimilarity sp) 80 = false) as Hsp.
  { intros Hn. unfold sp. by rewrite (scan_no_match_zero _ _ Hn). }
  destruct (Qlt_le_dec 80 (highestSimilarity sb)) as [Hb|Hb].
  - rewrite (backend_scored_high _ _ _ _ _ _ _ _ Hp Hin Hb). simpl.
    assert (bestMatchDomain sb ≠ None) as Hsome.
    { intros Hn. unfold sb in Hb. rewrite (scan_no_match_zero _ _ Hn) in Hb. done. }
    eexists _, _. split_and!; try done; simpl.
    + rewrite <- scan_no_match. done.
    + apply scan_no_match.
  - rewrite (backend_scored_low _ _ _ _ _ _ _ _ Hp Hin Hb). simpl.
    eexists _, _. split_and!; try done; simpl.
    + apply scan_no_match.
    + intros Hn. unfold sb. by rewrite (scan_no_match_zero _ _ Hn).
    + apply scan_no_match.
Qed.

(** ** The theorems above at concrete requests *)


Lemma whois_lookup_gate_witness :
  parse Demo.hostname (Text "exemple.com/login") = inr ("exemple.com/login", "exemple.com")
  ∧ (Backend.lookups
       (Backend.check_clone Demo.hostname (Demo.flat (9 # 10)) ["example.com"] ∅ Failed
          (Text "exemple.com/login")) = ["exemple.com"]
     ↔ ("exemple.com" ∉ ["example.com"])
       ∧ ∃ r, r ∈ ["example.com"]
              ∧ (80 < Demo.flat (9 # 10) "exemple.com" r * 100)%Q).
Proof.
  split; [reflexivity|].
  apply (whois_lookup_gate Demo.hostname (Demo.flat (9 # 10)) ["example.com"] ∅ Failed
           (Text "exemple.com/login") "exemple.com/login" "exemple.com").
  reflexivity.
Defined.

Lemma verified_domain_fast_path_witness :
  Demo.hostname "https://" = None
  ∧ "example.com" ∈ ["example.com"]
  ∧ "example.com" ≠ ""
  ∧ extractMainDomain Demo.hostname "http://www.example.com/path"
    = Some "example.com"
  ∧ Backend.check_clone Demo.hostname (Demo.flat 0) ["example.com"] ∅ Failed
      (Text "http://www.example.com/path")
    = Backend.Reply
        (Json (Verdict "http://www.example.com/path" "example.com"
                 (Some "example.com") "100%" false
                 "WHOIS lookup skipped for verified domains."))
        init ∅ [] [].
Proof.
  split_and!; [reflexivity|apply list_elem_of_here|discriminate|reflexivity|].
  apply (verified_domain_fast_path Demo.hostname (Demo.flat 0) ["example.com"] ∅ Failed
           "http://www.example.com/path" "example.com");
    [reflexivity|apply list_elem_of_here|discriminate|reflexivity].
Defined.

Lemma extractMainDomain_strips_one_www_witness :
  extractMainDomain Demo.hostname "www.example.com/a" = Some "example.com"
  ∧ ∃ hostname,
      Demo.hostname (with_scheme "www.example.com/a") = Some hostname
      ∧ ((startsWith hostname "www." = true ∧ hostname = "www." +:+ "example.com")
         ∨ (startsWith hostname "www." = false ∧ hostname = "example.com"))
      ∧ (startsWith "example.com" "www." = true
         ↔ startsWith hostname "www.www." = true).
Proof.
  split; [reflexivity|].
  apply (extractMainDomain_strips_one_www Demo.hostname "www.example.com/a").
  reflexivity.
Defined.

Lemma cached_whois_record_is_kept_witness :
  cache start !! "b.org" = None
  ∧ open_queries start "b.org" = 0
  ∧ Forall (unrelated "b.org" (calls start)) [Call "c.org" false]
  ∧ is_Some (run (call start "b.org" false) [Call "c.org" false])
  ∧ getCachedWhoisData (cache start) "b.org" Failed
    = ("WHOIS lookup failed.", <["b.org" := "WHOIS lookup failed."]> (cache start),
       ["b.org"]).
Proof.
  assert (Forall (unrelated "b.org" (calls start)) [Call "c.org" false]) as Hun.
  { repeat constructor. discriminate. }
  assert (is_Some (run (call start "b.org" false) [Call "c.org" false])) as Hrun.
  { eexists. reflexivity. }
  split_and!; [reflexivity|reflexivity|exact Hun|exact Hrun|].
  apply (cached_whois_record_is_kept start "b.org" Failed [Call "c.org" false]
           [] start false); [reflexivity|reflexivity|exact Hun|exact Hrun].
Defined.

Lemma uncached_calls_each_query_witness :
  cache start !! "b.org" = None
  ∧ ∃ w',
      run start (replicate 2 (Call "b.org" false)) = Some w'
      ∧ open_queries w' "b.org" = open_queries start "b.org" + 2
      ∧ queries w' = replicate 2 "b.org" ++ queries start
      ∧ ∀ u id err data u',
          callback u id err data = Some u' →
          ∃ d, (id, d) ∈ in_flight u
               ∧ result_of u' id
                 = Some (if err then "WHOIS lookup failed." else or_no_data data)
               ∧ cache u' !! d
                 = Some (if err then "WHOIS lookup failed." else or_no_data data).
Proof.
  split; [reflexivity|].
  apply (uncached_calls_each_query start "b.org" 2). reflexivity.
Defined.

Lemma no_best_match_iff_no_positive_score_witness :
  parse Demo.hostname (Text "ab") = inr ("ab", "ab")
  ∧ ("ab" ∉ ["cd"])
  ∧ Part000.sent (Part000.check_clone Demo.hostname ["cd"] Failed (Text "ab"))
    = Json (Verdict "ab" "ab" None "0.00%" false (getWhoisData "ab" Failed)).
Proof.
  assert ("ab" ∉ ["cd"]) as Hnot.
  { apply not_elem_of_cons. split; [discriminate|apply not_elem_of_nil]. }
  split_and!; [reflexivity|exact Hnot|].
  apply (no_best_match_iff_no_positive_score Demo.hostname (Demo.flat 0) ["cd"] ∅ Failed
           (Text "ab") "ab" "ab"); [reflexivity|exact Hnot].
Defined.

(** ** Inputs on which the wording of the specification fails *)

(** C2: part_000 calls [getWhoisData] although the best score, that of the
    one stored domain, is below 80. *)
Lemma part000_looks_up_below_threshold :
  Part000.lookups
    (Part000.check_clone Demo.hostname ["example.com"] Failed (Text "zzz.org"))
  = ["zzz.org"]
  ∧ ¬ (80 < highestSimilarity
              (Part000.vars
                 (Part000.check_clone Demo.hostname ["example.com"] Failed
                    (Text "zzz.org"))))%Q
  ∧ ∃ s, levenshteinDistance "zzz.org" "example.com" = Some s ∧ (s <= 80)%Q.
Proof.
  split_and!; [reflexivity|vm_compute; discriminate|].
  eexists. split; [reflexivity|]. vm_compute. discriminate.
Qed.


(** C5: the empty string is stored and "www." normalizes to it, yet the
    request is rejected. *)
Lemma empty_stored_domain_is_rejected :
  "" ∈ [""]
  ∧ extractMainDomain Demo.hostname "www." = Some ""
  ∧ Backend.sent (Backend.check_clone Demo.hostname (Demo.flat 0) [""] ∅ Failed (Text "www."))
    = Rejected 400 "❌ Invalid URL format."
  ∧ Part000.sent (Part000.check_clone Demo.hostname [""] Failed (Text "www."))
    = Rejected 400 "❌ Invalid URL format.".
Proof. split_and!; [apply list_elem_of_here|reflexivity..]. Qed.

(** C6: a hostname that begins with "www.www." keeps one "www.". *)
Lemma double_www_keeps_www :
  extractMainDomain Demo.hostname "www.www.example.com" = Some "www.example.com"
  ∧ startsWith "www.example.com" "www." = true.
Proof. split; reflexivity. Qed.

(** C7: part_000 asks again on the second request for the same domain and
    returns what the second query gave.  In server.js a call made while
    the first query is still open asks again as well: the first query
    fails, the second is answered, and the answer replaces the failure
    text in the cache. *)
Lemma whois_failure_is_not_final :
  Part000.check_clone Demo.hostname ["example.com"] Failed (Text "exemple.com")
  = Part000.Reply
      (Json (Verdict "exemple.com" "exemple.com" (Some "example.com") "90.91%" true
               "WHOIS data unavailable due to server error."))
      (Locals (Some "example.com") (1000 # 11)) ["exemple.com"]
  ∧ Part000.check_clone Demo.hostname ["example.com"]
      (Answered (Some "Registrar: X")) (Text "exemple.com")
    = Part000.Reply
        (Json (Verdict "exemple.com" "exemple.com" (Some "example.com") "90.91%" true
                 "Registrar: X"))
        (Locals (Some "example.com") (1000 # 11)) ["exemple.com"]
  ∧ ∃ w,
      run start [Call "exemple.com" false; Call "exemple.com" false;
                 Callback 0 true None; Callback 1 false (Some "Registrar: X");
                 Call "exemple.com" false] = Some w
      ∧ result_of w 0 = Some "WHOIS lookup failed."
      ∧ result_of w 1 = Some "Registrar: X"
      ∧ result_of w 2 = Some "Registrar: X"
      ∧ queries w = ["exemple.com"; "exemple.com"].
Proof. split_and!; [reflexivity..|]. eexists. split_and!; reflexivity. Qed.

(** C8: two calls for one uncached domain open two queries, and the two
    callers get different texts. *)
Lemma overlapping_lookups_query_twice :
  ∃ w2 w4,
    run start [Call "b.org" false; Call "b.org" false] = Some w2
    ∧ open_queries w2 "b.org" = 2
    ∧ run w2 [Callback 0 true None; Callback 1 false (Some "Registrar: X")] = Some w4
    ∧ queries w4 = ["b.org"; "b.org"]
    ∧ result_of w4 0 = Some "WHOIS lookup failed."
    ∧ result_of w4 1 = Some "Registrar: X"
    ∧ cache w4 !! "b.org" = Some "Registrar: X".
Proof. eexists _, _. split_and!; reflexivity. Qed.

(** * Further properties of the code *)

Import Loader LoaderFacts.

(** Read the fields of a reply and of the verdict in it. *)
Ltac read_verdict :=
  cbn [Backend.sent Backend.vars Backend.lookups Backend.whois_queries
       Backend.cache_after Part000.sent Part000.vars Part000.lookups
       suspect_url extracted_domain best_match_domain matching_accuracy
       isClone whoisData verified highestSimilarity bestMatchDomain init].

(** ** [loadDomains] *)

(** X1.  [line.split(",")] loses nothing: the parts joined by commas are
    the line again, there is one part more than the line has commas, and
    no part holds a comma. *)
Theorem split_commas_round_trip line :
  join_commas (split_commas line) = line
  ∧ length (split_commas line) = S (count_commas line)
  ∧ Forall (λ part, count_commas part = 0) (split_commas line).
Proof.
  split_and!; [apply join_split_commas|apply length_split_commas|apply split_commas_parts].
Qed.

(** X2.  What [loadDomains] resolves to holds exactly the second fields,
    trimmed and in lower case, of the lines that have two fields and whose
    second field is not the header ["original_url"]. *)
Theorem loadDomains_membership trim_lower lines d :
  d ∈ loadDomains trim_lower lines
  ↔ ∃ line part0 part1, line ∈ lines ∧ split_commas line = [part0; part1]
      ∧ part1 ≠ "original_url" ∧ d = trim_lower part1.
Proof.
  unfold loadDomains. rewrite elem_of_foldl_on_line. split; [|by right].
  intros [[]%elem_of_nil|?]. done.
Qed.

(** X3.  The loaded set has no domain twice, and no more domains than the
    file has lines. *)
Theorem loadDomains_no_duplicates trim_lower lines :
  NoDup (loadDomains trim_lower lines)
  ∧ length (loadDomains trim_lower lines) ≤ length lines.
Proof.
  split; [apply NoDup_foldl_on_line, NoDup_nil_2|].
  apply (length_foldl_on_line trim_lower []).
Qed.

(** X4.  A line with no comma, or with more than one, is skipped: the
    ["line"] handler leaves the set as it is. *)
Theorem line_without_single_comma_is_skipped trim_lower domains line :
  count_commas line ≠ 1 → on_line trim_lower domains line = domains.
Proof.
  intros Hc. destruct (on_line_cases trim_lower domains line)
    as [(p0 & p1 & Hs & _)|[_ ->]]; [|done].
  pose proof (length_split_commas line) as Hl. rewrite Hs in Hl. simpl in Hl. lia.
Qed.

(** X5.  Lines that come again later in the file change nothing: neither
    the domains nor their order. *)
Theorem loadDomains_reread trim_lower lines more :
  (∀ line, line ∈ more → line ∈ lines) →
  loadDomains trim_lower (lines ++ more) = loadDomains trim_lower lines.
Proof.
  intros Hsub. unfold loadDomains. rewrite foldl_app.
  apply foldl_on_line_present. intros line p0 p1 Hl Hs Hh.
  apply elem_of_foldl_on_line. right. exists line, p0, p1. auto.
Qed.

(** ** [levenshteinDistance] *)

(** X6.  The loops of [levenshteinDistance] always complete: no read or
    write leaves the matrix.  The matrix has one row per prefix of [b],
    and the cell in row [i], column [j] is the edit distance between the
    first [j] characters of [a] and the first [i] characters of [b]. *)
Theorem matrix_cell_is_prefix_distance a b i j :
  i ≤ String.length b → j ≤ String.length a →
  ∃ m, matrix a b = Some m ∧ length m = S (String.length b)
       ∧ mat_get m i j = Some (lev (take j (chars a)) (take i (chars b))).
Proof. apply matrix_cell. Qed.

(** X7.  On two non-empty strings the score is
    [(1 - d / max(|a|, |b|)) * 100] for a number [d] of single-character
    insertions, deletions and substitutions that turns [a] into [b], and
    no smaller number of them does. *)
Theorem levenshteinDistance_least_edits a b :
  a ≠ "" → b ≠ "" →
  ∃ d, levenshteinDistance a b
       = Some ((1 - num d / num (Nat.max (String.length a) (String.length b))) * 100)%Q
       ∧ edits (chars a) (chars b) d
       ∧ ∀ n, edits (chars a) (chars b) n → d ≤ n.
Proof.
  intros Ha Hb. exists (levenshtein_distance a b). split_and!.
  - by rewrite levenshteinDistance_formula.
  - apply lev_edits.
  - intros n. apply lev_least.
Qed.

(** X8.  On two non-empty strings the score lies between 0 and 100, and
    it is 100 only for equal strings. *)
Theorem levenshteinDistance_100_iff_equal a b :
  a ≠ "" → b ≠ "" →
  ∃ q, levenshteinDistance a b = Some q
       ∧ (0 <= q <= 100)%Q ∧ ((q == 100)%Q ↔ a = b).
Proof.
  intros Ha Hb. exists (similarity a b). split_and!.
  - by apply levenshteinDistance_formula.
  - by apply similarity_bounds.
  - by apply similarity_bounds.
  - by apply similarity_100_iff.
Qed.

(** X9.  The number in the last cell of the matrix, from which the score
    is computed, is at least the difference of the two lengths and at most
    the longer of them; on two non-empty strings the score is
    [(1 - d / max(|a|, |b|)) * 100] for that number [d]. *)
Theorem final_cell_length_bounds a b :
  ∃ m d, matrix a b = Some m
         ∧ mat_get m (String.length b) (String.length a) = Some d
         ∧ Nat.max (String.length a) (String.length b)
           - Nat.min (String.length a) (String.length b) ≤ d
         ∧ d ≤ Nat.max (String.length a) (String.length b)
         ∧ (a ≠ "" → b ≠ "" →
            levenshteinDistance a b
            = Some ((1 - num d / num (Nat.max (String.length a) (String.length b)))
                    * 100)%Q).
Proof.
  destruct (matrix_cell a b (String.length b) (String.length a))
    as (m & Hm & _ & Hd); [done..|].
  rewrite !take_ge in Hd by (by rewrite length_chars).
  exists m, (lev (chars a) (chars b)). split_and!; [done..| | |].
  - pose proof (lev_ge_length (chars a) (chars b)).
    pose proof (lev_ge_length (chars b) (chars a)).
    rewrite (lev_sym (chars b)) in *. rewrite <- !length_chars. lia.
  - rewrite <- !length_chars. apply lev_le_max.
  - intros Ha Hb. by rewrite levenshteinDistance_formula.
Qed.

(** ** The WHOIS helpers *)

(** X10.  Whatever calls and callbacks the server has seen, no text in
    the cache of server.js and no value a call resolved to is the empty
    string; nor is any value [getWhoisData] of part_000 resolves to. *)
Theorem whois_texts_are_never_empty es w :
  run start es = Some w →
  (∀ domain text, cache w !! domain = Some text → text ≠ "")
  ∧ (∀ id text, (id, text) ∈ resolved w → text ≠ "")
  ∧ ∀ domain o, getWhoisData domain o ≠ "".
Proof.
  intros Hrun. destruct (reachable_run _ _ _ reachable_start Hrun) as [Hc Hr _ _ _].
  split_and!; [done..|]. intros domain o. apply getWhoisData_nonempty.
Qed.

(** X11.  The cache never forgets a domain: once a domain is cached, after
    any calls and callbacks it still is, and a call for it resolves to the
    cached text without a query. *)
Theorem cached_domain_is_never_queried_again w es w' domain throws :
  is_Some (cache w !! domain) → run w es = Some w' →
  ∃ cached, cache w' !! domain = Some cached
            ∧ result_of (call w' domain throws) (calls w') = Some cached
            ∧ queries (call w' domain throws) = queries w'.
Proof.
  intros Hd Hrun. destruct (cache_kept_run _ _ _ _ Hd Hrun) as [cached Hc].
  exists cached. destruct (call_cached_result w' domain throws _ Hc) as (? & ? & _).
  done.
Qed.

(** X12.  A domain is cached only after [whois.lookup] was called for it,
    and there are never more queries than calls of [getCachedWhoisData]. *)
Theorem cached_domain_was_queried es w :
  run start es = Some w →
  (∀ domain, is_Some (cache w !! domain) → domain ∈ queries w)
  ∧ length (queries w) ≤ calls w.
Proof.
  intros Hrun. by destruct (reachable_run _ _ _ reachable_start Hrun) as [_ _ ? _ ?].
Qed.

(** ** The handlers *)

(** X13.  The loop of both handlers ends with the first stored domain, in
    the order of the set, that reaches the highest score: every domain
    before it scores strictly less, none after it scores more.  If no
    score is above 0 the two variables keep their initial values. *)
Theorem best_match_is_first_maximum (score : string → option Q) storedDomains :
  let st := scan score storedDomains in
  (bestMatchDomain st = None ∧ highestSimilarity st = 0%Q
   ∧ ∀ r s, r ∈ storedDomains → score r = Some s → (s <= 0)%Q)
  ∨ (∃ before d after,
       storedDomains = before ++ d :: after
       ∧ bestMatchDomain st = Some d
       ∧ score d = Some (highestSimilarity st)
       ∧ (0 < highestSimilarity st)%Q
       ∧ (∀ r s, r ∈ before → score r = Some s → (s < highestSimilarity st)%Q)
       ∧ (∀ r s, r ∈ after → score r = Some s → (s <= highestSimilarity st)%Q)).
Proof. apply scan_first_maximum. Qed.

(** X14.  A request gets an error response exactly when its body is not an
    object whose [suspect_url] is a non-empty string from which
    [extractMainDomain] gets a non-empty domain.  Without a body the
    [catch] of the handler answers 500; with one, the handler answers 400,
    "URL is required" for a falsy [suspect_url] and "Invalid URL format"
    otherwise.  Both files answer alike, before the loop and without a
    lookup; server.js leaves its cache as it is. *)
Theorem rejected_request_changes_nothing
    URL_hostname compareTwoStrings storedDomains whoisCache o b :
  let rb := Backend.handle URL_hostname compareTwoStrings storedDomains
              whoisCache o b in
  let rp := Part000.handle URL_hostname storedDomains o b in
  ((∃ status error, Backend.sent rb = Rejected status error)
   ↔ ¬ ∃ url domain, b = Body (Text url) ∧ url ≠ ""
         ∧ extractMainDomain URL_hostname url = Some domain ∧ domain ≠ "")
  ∧ ∀ status error,
      Backend.sent rb = Rejected status error ∨ Part000.sent rp = Rejected status error →
      rb = Backend.Reply (Rejected status error) init whoisCache [] []
      ∧ rp = Part000.Reply (Rejected status error) init []
      ∧ ((b = NoBody ∧ status = 500 ∧ error = "❌ Internal Server Error")
         ∨ ∃ f, b = Body f ∧ status = 400
                ∧ error = if falsy f then "❌ URL is required."
                          else "❌ Invalid URL format.").
Proof.
  cbv zeta. destruct b as [|f]; cbn [Backend.handle Part000.handle].
  { read_verdict. split.
    - split; [|by eauto]. by intros _ (url & d & ? & _).
    - intros status error [[= <- <-]|[= <- <-]]; (split_and!; [done..|]); by left. }
  destruct (backend_cases URL_hostname compareTwoStrings storedDomains whoisCache o f)
    as [(e & Hp & Hb)|Hb];
  destruct (part000_cases URL_hostname storedDomains o f)
    as [(e' & Hp' & Hq)|Hq].
  - rewrite Hb, Hq. read_verdict. rewrite Hp in Hp'. injection Hp' as <-. split.
    + split; [|by eauto]. intros _ (url & d & [= ->] & Hf).
      assert (parse URL_hostname (Text url) = inr (url, d)) by (by apply parse_inr).
      congruence.
    + intros status error Hs.
      assert (status = 400 ∧ error = e) as [-> ->].
      { by destruct Hs as [[= <- <-]|[= <- <-]]. }
      split_and!; [done..|]. right. exists f. split_and!; [done..|].
      destruct (parse_inl _ _ _ Hp) as [[-> [= ->]]|[-> [= ->]]]; done.
  - exfalso. destruct Hq as [(?&?&Hp2&_)|(?&?&Hp2&_)]; congruence.
  - exfalso. destruct Hb as [(?&?&Hp2&_)|[(?&?&Hp2&_)|(?&?&Hp2&_)]]; congruence.
  - assert (∃ url d, parse URL_hostname f = inr (url, d)) as (url & d & Hp).
    { destruct Hq as [(?&?&Hp2&_)|(?&?&Hp2&_)]; eauto. }
    assert (∀ status error, Backend.sent
       (Backend.check_clone URL_hostname compareTwoStrings storedDomains whoisCache o f)
       ≠ Rejected status error) as Hnb.
    { intros status error.
      destruct Hb as [(?&?&_&_&->)|[(?&?&_&_&_&->)|(?&?&_&_&_&->)]]; done. }
    assert (∀ status error, Part000.sent
       (Part000.check_clone URL_hostname storedDomains o f)
       ≠ Rejected status error) as Hnp.
    { intros status error. destruct Hq as [(?&?&_&_&->)|(?&?&_&_&->)]; done. }
    split.
    + split; [by intros (?&?&?%Hnb)|]. intros []. exists url, d.
      apply parse_inr in Hp as (-> & ? & ? & ?). done.
    + by intros status error [?%Hnb|?%Hnp].
Qed.

(** X15.  A verdict of either file echoes the request: [suspect_url] is
    the string that was sent, [extracted_domain] is what
    [extractMainDomain] makes of it and is not empty, and
    [best_match_domain], unless [null], is one of the stored domains. *)
Theorem verdict_echoes_request
    URL_hostname compareTwoStrings storedDomains whoisCache o f v :
  Backend.sent (Backend.check_clone URL_hostname compareTwoStrings storedDomains
                  whoisCache o f) = Json v
  ∨ Part000.sent (Part000.check_clone URL_hostname storedDomains o f) = Json v →
  f = Text (suspect_url v) ∧ suspect_url v ≠ ""
  ∧ extractMainDomain URL_hostname (suspect_url v) = Some (extracted_domain v)
  ∧ extracted_domain v ≠ ""
  ∧ ∀ d, best_match_domain v = Some d → d ∈ storedDomains.
Proof.
  assert (∀ score l d, bestMatchDomain (scan score l) = Some d → d ∈ l) as Hbest.
  { intros score l d Hd. destruct (scan_inv score l) as [(Hn & _)|(d' & Hb & ? & _)];
      congruence. }
  intros [Hv|Hv].
  - destruct (backend_cases URL_hostname compareTwoStrings storedDomains whoisCache o f)
      as [(e & _ & Hb)|[(url & d & Hp & Hin & Hb)|[(url & d & Hp & Hin & _ & Hb)
         |(url & d & Hp & Hin & _ & Hb)]]];
      rewrite Hb in Hv; cbn [Backend.sent] in Hv; simplify_eq; read_verdict;
      apply parse_inr in Hp as (? & ? & ? & ?); split_and!; try done.
    + by intros ? [= <-].
    + apply Hbest.
    + apply Hbest.
  - destruct (part000_cases URL_hostname storedDomains o f)
      as [(e & _ & Hb)|[(url & d & Hp & Hin & Hb)|(url & d & Hp & Hin & Hb)]];
      rewrite Hb in Hv; cbn [Part000.sent] in Hv; simplify_eq; read_verdict;
      apply parse_inr in Hp as (? & ? & ? & ?); split_and!; try done.
    + by intros ? [= <-].
    + apply Hbest.
Qed.

(** X16.  A clone alert of either file always names a look-alike: when
    [isClone] is true the extracted domain is not a stored domain, and
    [best_match_domain] is a stored domain other than the extracted
    one. *)
Theorem clone_names_another_stored_domain
    URL_hostname compareTwoStrings storedDomains whoisCache o f v :
  Backend.sent (Backend.check_clone URL_hostname compareTwoStrings storedDomains
                  whoisCache o f) = Json v
  ∨ Part000.sent (Part000.check_clone URL_hostname storedDomains o f) = Json v →
  isClone v = true →
  (extracted_domain v ∉ storedDomains)
  ∧ ∃ d, best_match_domain v = Some d ∧ d ∈ storedDomains ∧ d ≠ extracted_domain v.
Proof.
  assert (∀ score l, (80 < highestSimilarity (scan score l))%Q →
            ∃ d, bestMatchDomain (scan score l) = Some d ∧ d ∈ l) as Hbest.
  { intros score l. by apply scan_above. }
  assert (∀ (l : list string) x, x ∉ l →
            ∀ r, (∃ d, r = Some d ∧ d ∈ l) → ∃ d, r = Some d ∧ d ∈ l ∧ d ≠ x) as Hne.
  { intros l x Hx r (d & -> & Hd). exists d. split_and!; [done..|]. by intros ->. }
  intros [Hv|Hv].
  - destruct (backend_cases URL_hostname compareTwoStrings storedDomains whoisCache o f)
      as [(e & _ & Hb)|[(url & d & Hp & Hin & Hb)|[(url & d & Hp & Hin & _ & Hb)
         |(url & d & Hp & Hin & Hgt & Hb)]]];
      rewrite Hb in Hv; cbn [Backend.sent] in Hv; simplify_eq; read_verdict; try done.
    intros _. split; [done|]. by apply Hne, Hbest.
  - destruct (part000_cases URL_hostname storedDomains o f)
      as [(e & _ & Hb)|[(url & d & Hp & Hin & Hb)|(url & d & Hp & Hin & Hb)]];
      rewrite Hb in Hv; cbn [Part000.sent] in Hv; simplify_eq; read_verdict; try done.
    intros Hgt%gt_spec. split; [done|]. by apply Hne, Hbest.
Qed.

(** X17.  A request to server.js changes the cache at one key at most: the
    extracted domain, and only if it was not cached, the verdict is a
    clone alert and [whois.lookup] was called for it; the new entry is the
    text of the verdict.  Every other entry, and every entry that was
    there, stays. *)
Theorem backend_cache_frame
    URL_hostname compareTwoStrings storedDomains whoisCache o f k :
  let rb := Backend.check_clone URL_hostname compareTwoStrings storedDomains
              whoisCache o f in
  Backend.cache_after rb !! k = whoisCache !! k
  ∨ (whoisCache !! k = None
     ∧ Backend.cache_after rb !! k = Some (record_of o)
     ∧ Backend.whois_queries rb = [k]
     ∧ ∃ v, Backend.sent rb = Json v ∧ extracted_domain v = k
            ∧ isClone v = true ∧ whoisData v = record_of o).
Proof.
  cbv zeta.
  destruct (backend_cases URL_hostname compareTwoStrings storedDomains whoisCache o f)
    as [(e & _ & Hb)|[(url & d & Hp & Hin & Hb)|[(url & d & Hp & Hin & _ & Hb)
       |(url & d & Hp & Hin & Hgt & Hb)]]];
    rewrite Hb; read_verdict; try by left.
  unfold getCachedWhoisData. destruct (whoisCache !! d) as [t|] eqn:Hd; simpl.
  { by left. }
  destruct (decide (k = d)) as [->|Hk].
  - right. rewrite lookup_insert_eq. split_and!; [done..|]. eexists. by read_verdict.
  - left. by rewrite lookup_insert_ne.
Qed.

(** X18.  The same request sent to server.js a second time gets the same
    response as the first, whatever [whois.lookup] would answer now: the
    second request calls [whois.lookup] not at all and leaves the cache as
    the first left it. *)
Theorem repeated_request_is_served_from_cache
    URL_hostname compareTwoStrings storedDomains whoisCache o o' f :
  let first := Backend.check_clone URL_hostname compareTwoStrings storedDomains
                 whoisCache o f in
  let second := Backend.check_clone URL_hostname compareTwoStrings storedDomains
                  (Backend.cache_after first) o' f in
  Backend.sent second = Backend.sent first
  ∧ Backend.whois_queries second = []
  ∧ Backend.cache_after second = Backend.cache_after first.
Proof.
  cbv zeta.
  destruct (backend_cases URL_hostname compareTwoStrings storedDomains whoisCache o f)
    as [(e & Hp & Hb)|[(url & d & Hp & Hin & Hb)|[(url & d & Hp & Hin & Hle & Hb)
       |(url & d & Hp & Hin & Hgt & Hb)]]];
    rewrite Hb; read_verdict.
  - unfold Backend.check_clone. by rewrite Hp.
  - by rewrite (backend_verified _ _ _ _ _ _ _ _ Hp Hin).
  - by rewrite (backend_scored_low _ _ _ _ _ _ _ _ Hp Hin Hle).
  - rewrite (backend_scored_high _ _ _ _ _ _ _ _ Hp Hin Hgt).
    by rewrite getCachedWhoisData_again.
Qed.

(** X19.  In part_000, if the empty string is not a stored domain,
    [highestSimilarity] ends between 0 and 100 and never reaches 100: a
    domain that would score 100 is a stored one, and the handler returns
    for it before the loop. *)
Theorem part000_score_range URL_hostname storedDomains o f :
  "" ∉ storedDomains →
  let h := highestSimilarity
             (Part000.vars (Part000.check_clone URL_hostname storedDomains o f)) in
  (0 <= h)%Q ∧ (h < 100)%Q.
Proof.
  intros Hne. cbv zeta.
  destruct (part000_cases URL_hostname storedDomains o f)
    as [(e & _ & Hb)|[(url & d & Hp & Hin & Hb)|(url & d & Hp & Hin & Hb)]];
    rewrite Hb; read_verdict; try done.
  apply parse_inr in Hp as (_ & _ & _ & Hd).
  destruct (scan_inv (levenshteinDistance d) storedDomains)
    as [(_ & -> & _)|(r & _ & Hr & Hs & Hpos)]; [done|].
  split; [by apply Qlt_le_weak|].
  assert (r ≠ "") as Hr' by (by intros ->).
  rewrite (levenshteinDistance_formula d r Hd Hr') in Hs. injection Hs as Hs.
  rewrite <- Hs.
  destruct (similarity_bounds d r Hd) as [_ Hle].
  apply Qle_lteq in Hle as [Hlt|Heq]; [done|].
  apply similarity_100_iff in Heq; [|done]. by subst.
Qed.

(** X20.  In part_000, if the empty string is not a stored domain, a
    clone alert names a best match of nearly the length of the extracted
    domain: four times the longer of the two lengths is less than five
    times the shorter. *)
Theorem part000_clone_has_similar_length URL_hostname storedDomains o f v :
  "" ∉ storedDomains →
  Part000.sent (Part000.check_clone URL_hostname storedDomains o f) = Json v →
  isClone v = true →
  ∃ d, best_match_domain v = Some d
       ∧ 4 * Nat.max (String.length (extracted_domain v)) (String.length d)
         < 5 * Nat.min (String.length (extracted_domain v)) (String.length d).
Proof.
  intros Hne Hv.
  destruct (part000_cases URL_hostname storedDomains o f)
    as [(e & _ & Hb)|[(url & d & Hp & Hin & Hb)|(url & d & Hp & Hin & Hb)]];
    rewrite Hb in Hv; cbn [Part000.sent] in Hv; simplify_eq; read_verdict; try done.
  intros Hgt%gt_spec. apply parse_inr in Hp as (_ & _ & _ & Hd).
  destruct (scan_inv (levenshteinDistance d) storedDomains)
    as [(_ & H0 & _)|(r & Hbest & Hr & Hs & _)].
  { rewrite H0 in Hgt. done. }
  exists r. split; [done|].
  assert (r ≠ "") as Hr' by (by intros ->).
  rewrite (levenshteinDistance_formula d r Hd Hr') in Hs. injection Hs as Hs.
  eapply above_80_lengths; [|exact Hgt|].
  - rewrite <- length_0_empty in Hd. lia.
  - rewrite <- Hs. by apply similarity_length_cap.
Qed.

(** X21.  Loader and handler together: with the stored domains read by
    [loadDomains], a request whose extracted domain is the trimmed,
    lower-case second field of a line of the file is answered as verified
    by both files, without a score and without a lookup. *)
Theorem loaded_domain_is_verified
    URL_hostname compareTwoStrings trim_lower lines whoisCache o f
    line part0 part1 url :
  line ∈ lines → split_commas line = [part0; part1] → part1 ≠ "original_url" →
  parse URL_hostname f = inr (url, trim_lower part1) →
  Backend.check_clone URL_hostname compareTwoStrings (loadDomains trim_lower lines)
    whoisCache o f
  = Backend.Reply (Json (verified url (trim_lower part1))) init whoisCache [] []
  ∧ Part000.check_clone URL_hostname (loadDomains trim_lower lines) o f
    = Part000.Reply (Json (verified url (trim_lower part1))) init [].
Proof.
  intros Hl Hs Hh Hp.
  assert (trim_lower part1 ∈ loadDomains trim_lower lines) as Hin.
  { apply elem_of_foldl_on_line. right. by exists line, part0, part1. }
  split; [by apply backend_verified|by apply part000_verified].
Qed.

(** ** [extractMainDomain] *)

(** X22.  The scheme repair is done once: the string handed to the URL
    parser always starts with ["http://"] or ["https://"], repairing it
    again changes nothing, and an input gives the same domain with the
    repair applied beforehand as without. *)
Theorem extractMainDomain_scheme_repair URL_hostname inputUrl :
  with_scheme (with_scheme inputUrl) = with_scheme inputUrl
  ∧ extractMainDomain URL_hostname (with_scheme inputUrl)
    = extractMainDomain URL_hostname inputUrl
  ∧ (startsWith (with_scheme inputUrl) "http://" = true
     ∨ startsWith (with_scheme inputUrl) "https://" = true).
Proof.
  assert (with_scheme (with_scheme inputUrl) = with_scheme inputUrl) as Hi.
  { apply with_scheme_fixed, with_scheme_prefixed. }
  split_and!; [done| |apply with_scheme_prefixed].
  unfold extractMainDomain. by rewrite Hi.
Qed.

(** ** The theorems of this part at concrete inputs

    [trim().toLowerCase()] leaves the fields used here as they are. *)

Lemma line_without_single_comma_is_skipped_witness :
  count_commas "1,example.com,x" ≠ 1
  ∧ on_line id ["example.org"] "1,example.com,x" = ["example.org"].
Proof.
  assert (count_commas "1,example.com,x" ≠ 1) as Hc by (simpl; lia).
  split; [exact Hc|].
  apply (line_without_single_comma_is_skipped id ["example.org"] "1,example.com,x" Hc).
Defined.

Lemma loadDomains_reread_witness :
  loadDomains id (["id,original_url"; "1,example.com"] ++ ["1,example.com"])
  = loadDomains id ["id,original_url"; "1,example.com"].
Proof.
  apply (loadDomains_reread id ["id,original_url"; "1,example.com"] ["1,example.com"]).
  intros line ->%list_elem_of_singleton. apply list_elem_of_further, list_elem_of_here.
Defined.

Lemma matrix_cell_is_prefix_distance_witness :
  ∃ m, matrix "kitten" "sitting" = Some m ∧ length m = 8
       ∧ mat_get m 7 6 = Some (lev (take 6 (chars "kitten")) (take 7 (chars "sitting"))).
Proof.
  apply (matrix_cell_is_prefix_distance "kitten" "sitting" 7 6); simpl; lia.
Defined.

Lemma levenshteinDistance_least_edits_witness :
  ∃ d, levenshteinDistance "a.com" "b.com"
       = Some ((1 - num d / num (Nat.max (String.length "a.com") (String.length "b.com")))
               * 100)%Q
       ∧ edits (chars "a.com") (chars "b.com") d
       ∧ ∀ n, edits (chars "a.com") (chars "b.com") n → d ≤ n.
Proof.
  apply (levenshteinDistance_least_edits "a.com" "b.com"); discriminate.
Defined.

Lemma levenshteinDistance_100_iff_equal_witness :
  ∃ q, levenshteinDistance "a.com" "b.com" = Some q
       ∧ (0 <= q <= 100)%Q ∧ ((q == 100)%Q ↔ "a.com" = "b.com").
Proof.
  apply (levenshteinDistance_100_iff_equal "a.com" "b.com"); discriminate.
Defined.

Lemma whois_texts_are_never_empty_witness :
  ∃ w, run start [Call "a.com" false; Callback 0 false (Some "")] = Some w
       ∧ cache w !! "a.com" = Some "No WHOIS data found."
       ∧ ∀ domain text, cache w !! domain = Some text → text ≠ "".
Proof.
  eexists. split_and!; [reflexivity|reflexivity|].
  apply (whois_texts_are_never_empty
           [Call "a.com" false; Callback 0 false (Some "")] _).
  reflexivity.
Defined.

Lemma cached_domain_is_never_queried_again_witness :
  is_Some (cache (call start "a.com" true) !! "a.com")
  ∧ ∃ cached,
      cache (call (call start "a.com" true) "b.org" false) !! "a.com" = Some cached
      ∧ result_of (call (call (call start "a.com" true) "b.org" false) "a.com" false) 2
        = Some cached
      ∧ queries (call (call (call start "a.com" true) "b.org" false) "a.com" false)
        = queries (call (call start "a.com" true) "b.org" false).
Proof.
  assert (is_Some (cache (call start "a.com" true) !! "a.com")) as Hc.
  { eexists. reflexivity. }
  split; [exact Hc|].
  apply (cached_domain_is_never_queried_again (call start "a.com" true)
           [Call "b.org" false] (call (call start "a.com" true) "b.org" false)
           "a.com" false Hc).
  reflexivity.
Defined.

Lemma cached_domain_was_queried_witness :
  ∃ w, run start [Call "a.com" false; Callback 0 true None] = Some w
       ∧ cache w !! "a.com" = Some "WHOIS lookup failed."
       ∧ ∀ domain, is_Some (cache w !! domain) → domain ∈ queries w.
Proof.
  eexists. split_and!; [reflexivity|reflexivity|].
  apply (cached_domain_was_queried [Call "a.com" false; Callback 0 true None] _).
  reflexivity.
Defined.

Lemma verdict_echoes_request_witness :
  ∃ v, Part000.sent (Part000.check_clone Demo.hostname ["b.com"] Failed
                       (Text "http://www.a.com/x")) = Json v
       ∧ Text "http://www.a.com/x" = Text (suspect_url v)
       ∧ suspect_url v ≠ ""
       ∧ extractMainDomain Demo.hostname (suspect_url v) = Some (extracted_domain v)
       ∧ extracted_domain v ≠ ""
       ∧ ∀ d, best_match_domain v = Some d → d ∈ ["b.com"].
Proof.
  eexists. split; [reflexivity|].
  apply (verdict_echoes_request Demo.hostname (Demo.flat 0) ["b.com"] ∅ Failed
           (Text "http://www.a.com/x") _).
  right. reflexivity.
Defined.

Lemma clone_names_another_stored_domain_witness :
  ∃ v, Part000.sent (Part000.check_clone Demo.hostname ["example.com"] Failed
                       (Text "exemple.com")) = Json v
       ∧ isClone v = true
       ∧ (extracted_domain v ∉ ["example.com"]).
Proof.
  eexists. split_and!; [reflexivity|reflexivity|].
  apply (clone_names_another_stored_domain Demo.hostname (Demo.flat 0)
           ["example.com"] ∅ Failed (Text "exemple.com") _);
    [right; reflexivity|reflexivity].
Defined.

Lemma part000_score_range_witness :
  ("" ∉ ["example.com"])
  ∧ (0 <= highestSimilarity
            (Part000.vars (Part000.check_clone Demo.hostname ["example.com"] Failed
                             (Text "exemple.com"))))%Q.
Proof.
  assert ("" ∉ ["example.com"]) as Hne.
  { apply not_elem_of_cons. split; [discriminate|apply not_elem_of_nil]. }
  split; [exact Hne|].
  apply (part000_score_range Demo.hostname ["example.com"] Failed
           (Text "exemple.com") Hne).
Defined.

Lemma part000_clone_has_similar_length_witness :
  ("" ∉ ["example.com"])
  ∧ ∃ v, Part000.sent (Part000.check_clone Demo.hostname ["example.com"] Failed
                         (Text "exemple.com")) = Json v
         ∧ isClone v = true
         ∧ ∃ d, best_match_domain v = Some d
                ∧ 4 * Nat.max (String.length (extracted_domain v)) (String.length d)
                  < 5 * Nat.min (String.length (extracted_domain v)) (String.length d).
Proof.
  assert ("" ∉ ["example.com"]) as Hne.
  { apply not_elem_of_cons. split; [discriminate|apply not_elem_of_nil]. }
  split; [exact Hne|].
  eexists. split_and!; [reflexivity|reflexivity|].
  apply (part000_clone_has_similar_length Demo.hostname ["example.com"] Failed
           (Text "exemple.com") _ Hne); reflexivity.
Defined.

Lemma loaded_domain_is_verified_witness :
  "1,example.com" ∈ ["id,original_url"; "1,example.com"]
  ∧ Backend.check_clone Demo.hostname (Demo.flat 0)
      (loadDomains id ["id,original_url"; "1,example.com"]) ∅ Failed
      (Text "https://www.example.com/login")
    = Backend.Reply (Json (verified "https://www.example.com/login" (id "example.com")))
        init ∅ [] [].
Proof.
  assert ("1,example.com" ∈ ["id,original_url"; "1,example.com"]) as Hl.
  { apply list_elem_of_further, list_elem_of_here. }
  split; [exact Hl|].
  apply (loaded_domain_is_verified Demo.hostname (Demo.flat 0) id
           ["id,original_url"; "1,example.com"] ∅ Failed
           (Text "https://www.example.com/login") "1,example.com" "1" "example.com"
           "https://www.example.com/login" Hl); [reflexivity|discriminate|reflexivity].
Defined.
